(** * Lyric-App: real-time captioning pipeline (src/Lyric-App-main/app.py)

    A shallow embedding of the capture -> segment -> transcribe -> subtitle
    pipeline, followed by the properties of its components.

    Modelling conventions.
    - Python [float] time stamps ([time.time()]) are rationals [Q]. The
      segmenter compares them and takes their span exactly. The products
      [ts * 1000] of the subtitle formatter and [timeout * 1000] and
      [width * 0.6] of the overlay are rounded to the nearest binary64
      value, ties to even ([Py.float_mul]), as a double product is;
      infinities and NaN are outside the model.
    - Python [int] is [Z]; [//] and [%] are [Z.div] and [Z.modulo] (floor
      semantics for the positive divisors used here).
    - int16 PCM chunks (numpy arrays) are [list Z]; byte strings are
      [list Byte.byte].
    - Every thread loop is modelled by its body, one iteration at a time;
      the order in which a loop meets its inputs is given as a list.
    - A call that may raise or block returns an [Outcome].
    - The file system touched by the subtitle writer is a finite map from
      paths to file contents. *)

From Stdlib Require Import ZArith QArith Qround Qpower String Ascii List Lia Lqa
  DecimalString.
From Stdlib.Strings Require Import Byte.
From stdpp Require Import gmap strings list.

Open Scope Z_scope.

(* ------------------------------------------------------------------ *)
(** ** Python runtime fragments used by the program *)

Module Py.

(** Exceptions the program raises or catches; all derive from
    [Exception]. *)
Inductive Exc : Type :=
| QueueFull
| QueueEmpty
| ZeroDivisionError
| OtherException (msg : string).

(** Result of a call: it returns, raises, or never returns (a blocking
    call whose condition is not met). *)
Inductive Outcome (A : Type) : Type :=
| Returned (a : A)
| Raised (e : Exc)
| Blocked.
Arguments Returned {A} a.
Arguments Raised {A} e.
Arguments Blocked {A}.

Definition bind {A B} (m : Outcome A) (k : A -> Outcome B) : Outcome B :=
  match m with
  | Returned a => k a
  | Raised e => Raised e
  | Blocked => Blocked
  end.

Definition str_of_exc (e : Exc) : string :=
  match e with
  | QueueFull => ""
  | QueueEmpty => ""
  | ZeroDivisionError => "division by zero"
  | OtherException msg => msg
  end.

(** [x or y] on an optional float: [None] and [0.0] are falsy. *)
Definition float_truthy (x : Q) : bool := negb (Qeq_bool x 0).

Definition or_float (x : option Q) (y : Q) : Q :=
  match x with
  | Some v => if float_truthy v then v else y
  | None => y
  end.

(** Truthiness of a [str]. *)
Definition str_truthy (s : string) : bool :=
  match s with
  | EmptyString => false
  | String _ _ => true
  end.

(** [int(x)] on a float: truncation toward zero. *)
Definition int_of_float (x : Q) : Z := Z.quot (Qnum x) (Zpos (Qden x)).

(** [a / b] on two ints (true division). The quotient is kept exact: the
    program only takes its ceiling, which for ints below [2^53] is the
    ceiling of the quotient as a double ([ceil_of_double_quotient]). *)
Definition truediv (a b : Z) : Outcome Q :=
  if b =? 0 then Raised ZeroDivisionError
  else Returned (inject_Z a / inject_Z b)%Q.

(** [math.ceil]. *)
Definition ceil (x : Q) : Z := Qceiling x.

(** Comparisons on floats. *)
Definition float_ge (x y : Q) : bool := Qle_bool y x.
Definition float_gt (x y : Q) : bool := negb (Qle_bool x y).

(** *** Binary64 arithmetic

    A finite double is a rational [m * 2^e] with [|m| < 2^53] and
    [-1074 <= e <= 971]. An operation on doubles gives the exact result
    rounded to the nearest double, ties to the even mantissa. *)

Definition pow2 (e : Z) : Q := (2 ^ e)%Q.

(** The binade of a positive [x]: the [e] with [2^e <= x < 2^(e+1)]. *)
Definition binade (x : Q) : Z :=
  let e0 := Z.log2 (Qnum x) - Z.log2 (Zpos (Qden x)) in
  if Qle_bool (pow2 e0) x then e0 else e0 - 1.

(** The nearest integer, ties to even. *)
Definition round_half_even (y : Q) : Z :=
  let f := Qfloor y in
  match (y - inject_Z f ?= 1 # 2)%Q with
  | Lt => f
  | Eq => if Z.even f then f else f + 1
  | Gt => f + 1
  end.

(** The spacing of the doubles around a positive [x]: [2^(e-52)] in the
    binade [e], and [2^-1074] among the subnormals. *)
Definition ulp (x : Q) : Q := pow2 (Z.max (binade x) (-1022) - 52).

(** The double nearest to [x], for [x] within the range of the finite
    doubles. *)
Definition to_double (x : Q) : Q :=
  match (x ?= 0)%Q with
  | Eq => 0%Q
  | Gt => (inject_Z (round_half_even (x / ulp x)) * ulp x)%Q
  | Lt => (- (inject_Z (round_half_even (- x / ulp (- x))) * ulp (- x)))%Q
  end.

(** [x * y] on two floats. *)
Definition float_mul (x y : Q) : Q := to_double (x * y).

Definition is_double (x : Q) : Prop :=
  exists m e : Z,
    Z.abs m < 2 ^ 53 /\ -1074 <= e <= 971 /\ (x == inject_Z m * pow2 e)%Q.

(** [str(n)] for an int. *)
Definition str_of_int (n : Z) : string := NilZero.string_of_int (Z.to_int n).

Fixpoint zeros (k : nat) : string :=
  match k with
  | O => EmptyString
  | S k' => String "0" (zeros k')
  end.

(** [f"{n:0w}"]: sign first, then zeros up to the minimum width [w],
    then the decimal digits. *)
Definition format_zero_pad (w : nat) (n : Z) : string :=
  let digits := str_of_int (Z.abs n) in
  let sign := if n <? 0 then "-"%string else ""%string in
  sign +:+ zeros (w - String.length sign - String.length digits) +:+ digits.

(** [logging]: the root logger is configured at level INFO, so DEBUG
    records are not emitted. *)
Inductive Level : Type := DEBUG | INFO | WARNING | ERROR.

Definition level_no (l : Level) : Z :=
  match l with
  | DEBUG => 10
  | INFO => 20
  | WARNING => 30
  | ERROR => 40
  end.

Definition Log : Type := list (Level * string).

Definition logging (lvl : Level) (msg : string) (log : Log) : Log :=
  if level_no INFO <=? level_no lvl then log ++ [(lvl, msg)] else log.

End Py.

Import Py.

#[global] Instance outcome_ret : MRet Outcome := fun A a => Returned a.
#[global] Instance outcome_bind : MBind Outcome := fun A B k m => Py.bind m k.

(* ------------------------------------------------------------------ *)
(** ** [queue.Queue]: the bounded FIFO channel between the stages *)

Module Queue.

Record t (A : Type) : Type := mk { maxsize : Z; items : list A }.
Arguments mk {A} maxsize items.
Arguments maxsize {A} _.
Arguments items {A} _.

Definition new {A} (maxsize : Z) : t A := mk maxsize [].

Definition qsize {A} (q : t A) : Z := Z.of_nat (length (items q)).

(** A queue whose [maxsize] is not positive is unbounded. *)
Definition full {A} (q : t A) : bool :=
  (0 <? maxsize q) && (maxsize q <=? qsize q).

(** [put(item, block)] without timeout. *)
Definition put {A} (q : t A) (item : A) (block : bool) : Outcome (t A) :=
  if full q then (if block then Blocked else Raised QueueFull)
  else Returned (mk (maxsize q) (items q ++ [item])).

Definition put_nowait {A} (q : t A) (item : A) : Outcome (t A) :=
  put q item false.

(** [get(timeout=...)]: the oldest item, or [queue.Empty] once the
    timeout has passed on an empty queue. *)
Definition get {A} (q : t A) : Outcome (A * t A) :=
  match items q with
  | [] => Raised QueueEmpty
  | x :: rest => Returned (x, mk (maxsize q) rest)
  end.

End Queue.

(* ------------------------------------------------------------------ *)
(** ** SRT writer *)

Module SRTWriter.

Record t : Type := mk { filename : string }.

(** [open(filename, "w")] followed by [write("")]: the file is created
    or cut to length zero. *)
Definition __init__ (filename : string) (fs : gmap string string)
  : t * gmap string string :=
  (mk filename, <[filename := ""%string]> fs).

Definition _format_timestamp (ts : Q) : string :=
  let total_ms := int_of_float (float_mul ts 1000) in
  let ms := total_ms mod 1000 in
  let s := (total_ms / 1000) mod 60 in
  let m := (total_ms / (1000 * 60)) mod 60 in
  let h := (total_ms / (1000 * 60 * 60)) mod 100 in
  format_zero_pad 2 h +:+ ":" +:+ format_zero_pad 2 m +:+ ":" +:+
  format_zero_pad 2 s +:+ "," +:+ format_zero_pad 3 ms.

Definition nl : string := String (ascii_of_nat 10) EmptyString.

Definition entry_text (idx : Z) (start_ts end_ts : Q) (text : string) : string :=
  (str_of_int idx +:+ nl) +:+
  (_format_timestamp start_ts +:+ " --> " +:+ _format_timestamp end_ts +:+ nl) +:+
  (text +:+ nl +:+ nl).

(** [open(filename, "a")]: the three writes land after whatever the
    file holds; a missing file is created. *)
Definition write_entry (self : t) (idx : Z) (start_ts end_ts : Q) (text : string)
    (fs : gmap string string) : gmap string string :=
  let old := default ""%string (fs !! filename self) in
  <[filename self := old +:+ entry_text idx start_ts end_ts text]> fs.

(** Successive [write_entry] calls, oldest first. *)
Definition write_entries (self : t) (entries : list (Z * Q * Q * string))
    (fs : gmap string string) : gmap string string :=
  fold_left (fun fs e => let '(idx, start_ts, end_ts, text) := e in
                         write_entry self idx start_ts end_ts text fs)
            entries fs.

Definition entries_text (entries : list (Z * Q * Q * string)) : string :=
  fold_left (fun acc e => let '(idx, start_ts, end_ts, text) := e in
                          acc +:+ entry_text idx start_ts end_ts text)
            entries ""%string.

End SRTWriter.

(* ------------------------------------------------------------------ *)
(** ** numpy fragments: int16 arrays *)

Module Np.

Definition byte_of_Z (z : Z) : Byte.byte :=
  default Byte.x00 (Byte.of_N (Z.to_N (z mod 256))).

(** [ndarray.tobytes()] of an int16 array: two bytes per sample, low
    byte first, two's complement. *)
Definition int16_bytes (s : Z) : list Byte.byte :=
  let u := s mod 65536 in [byte_of_Z u; byte_of_Z (u / 256)].

Definition tobytes (a : list Z) : list Byte.byte := flat_map int16_bytes a.

Definition sum (row : list Z) : Z := fold_right Z.add 0 row.

(** One row of [indata.mean(axis=1).astype(np.int16)]: the float mean
    of the channels, cut toward zero. *)
Definition mean_int16 (row : list Z) : Z :=
  int_of_float (inject_Z (sum row) / inject_Z (Z.of_nat (length row)))%Q.

End Np.

(* ------------------------------------------------------------------ *)
(** ** [AudioSegment] *)

Module AudioSegment.

Record t : Type := mk {
  start_time : Q;
  end_time : option Q;
  samples : list (list Z)
}.

Definition new (start_time : Q) : t := mk start_time None [].

Definition append (self : t) (pcm_chunk : list Z) : t :=
  mk (start_time self) (end_time self) (samples self ++ [pcm_chunk]).

Definition set_end_time (self : t) (e : Q) : t :=
  mk (start_time self) (Some e) (samples self).

Definition get_pcm_bytes (self : t) : list Byte.byte :=
  match samples self with
  | [] => []
  | _ => Np.tobytes (concat (samples self))
  end.

Definition duration (self : t) : Q :=
  match end_time self with
  | None => 0
  | Some e => e - start_time self
  end.

End AudioSegment.

(* ------------------------------------------------------------------ *)
(** ** Audio capture *)

Module RealTimeCapturer.

(** What the callback queues: [(timestamp, mono int16 samples)]. *)
Definition Frame : Type := Q * list Z.

(** [webrtcvad.Vad.is_speech(bytes, sample_rate)]; frames are taken to
    have a length the detector accepts. *)
Definition Vad : Type := list Byte.byte -> Z -> bool.

Record t : Type := mk {
  sample_rate : Z;
  block_duration_ms : Z;
  block_size : Z;
  channels : Z;
  vad : Vad;
  q : Queue.t Frame;
  running : bool
}.

Definition __init__ (webrtcvad_Vad : Z -> Vad)
    (sample_rate block_duration_ms vad_aggressiveness channels : Z) : t :=
  mk sample_rate block_duration_ms
     (int_of_float (inject_Z (sample_rate * block_duration_ms) / 1000))
     channels
     (webrtcvad_Vad (Z.max 0 (Z.min 3 vad_aggressiveness)))
     (Queue.new 100)
     false.

Definition set_q (self : t) (q' : Queue.t Frame) : t :=
  mk (sample_rate self) (block_duration_ms self) (block_size self)
     (channels self) (vad self) q' (running self).

(** The sounddevice callback. [indata] has one row per sample and one
    column per channel; [status] is the printed flag set (empty when no
    flag is raised); [ts] is the value [time.time()] returns. *)
Definition _callback (self : t) (indata : list (list Z)) (status : string)
    (ts : Q) (log : Log) : Outcome (t * Log) :=
  let log := if str_truthy status
             then logging DEBUG ("Stream status: " +:+ status) log else log in
  let indata := if 1 <? channels self
                then map Np.mean_int16 indata else concat indata in
  match Queue.put_nowait (q self) (ts, indata) with
  | Returned q' => Returned (set_q self q', log)
  | Raised QueueFull =>
      Returned (self, logging WARNING "Audio queue full; dropping audio frame." log)
  | Raised e => Raised e
  | Blocked => Blocked
  end.

End RealTimeCapturer.

(* ------------------------------------------------------------------ *)
(** ** Segmenter: VAD frames -> speech segments *)

Module Segmenter.

Import RealTimeCapturer.

(** The capturer and the out queue are shared objects; they are passed
    to the functions below instead of being fields. *)
Record t : Type := mk {
  min_frames : Z;
  max_silence_frames : Z;
  segment_timeout_s : Z
}.

Definition __init__ (capturer : RealTimeCapturer.t)
    (min_speech_ms max_silence_ms segment_timeout_s : Z) : Outcome t :=
  a ← truediv min_speech_ms (block_duration_ms capturer);
  b ← truediv max_silence_ms (block_duration_ms capturer);
  mret (mk (Z.max 1 (ceil a)) (Z.max 1 (ceil b)) segment_timeout_s).

(** The local variables of [run]. *)
Record Locals : Type := mkL {
  cur_segment : option AudioSegment.t;
  speech_frame_count : Z;
  silence_frame_count : Z;
  last_activity : option Q
}.

Definition initial : Locals := mkL None 0 0 None.

(** A pending [out_queue.put_nowait(segment)], with the warning its
    [except queue.Full] handler logs. *)
Definition Handoff : Type := AudioSegment.t * string.

Definition silence_end (self : t) (st : Locals) : bool :=
  max_silence_frames self <=? silence_frame_count st.

Definition timed_out (self : t) (ts : Q) (seg : AudioSegment.t) : bool :=
  float_gt (ts - AudioSegment.start_time seg) (inject_Z (segment_timeout_s self)).

(** [capturer.vad.is_speech(pcm.tobytes(), capturer.sample_rate)] *)
Definition classify (capturer : RealTimeCapturer.t) (pcm : list Z) : bool :=
  vad capturer (Np.tobytes pcm) (sample_rate capturer).

(** Inside a segment: the frame is appended (giving [seg]) and the
    counters follow its class. *)
Definition extend (st : Locals) (seg : AudioSegment.t) (is_speech : bool)
    (ts : Q) : Locals :=
  if is_speech
  then mkL (Some seg) (speech_frame_count st + 1) 0 (Some ts)
  else mkL (Some seg) (speech_frame_count st)
           (silence_frame_count st + 1) (last_activity st).

(** The body of the [while] loop after a frame was taken from the
    capturer queue, up to the hand-off to the out queue. *)
Definition body (self : t) (capturer : RealTimeCapturer.t) (st : Locals)
    (frame : Frame) : Locals * option Handoff :=
  let '(ts, pcm) := frame in
  let is_speech := classify capturer pcm in
  match cur_segment st with
  | None =>
      if is_speech then
        (mkL (Some (AudioSegment.append (AudioSegment.new ts) pcm)) 1 0 (Some ts), None)
      else (st, None)
  | Some seg =>
      let seg := AudioSegment.append seg pcm in
      let st := extend st seg is_speech ts in
      if silence_end self st then
        let end_time := or_float (last_activity st) ts in
        let seg := AudioSegment.set_end_time seg end_time in
        let duration_ms := ((end_time - AudioSegment.start_time seg) * 1000)%Q in
        (initial,
         if float_ge duration_ms
              (inject_Z (min_frames self * block_duration_ms capturer))
         then Some (seg, "Out queue full; dropping segment."%string)
         else None)
      else if timed_out self ts seg then
        (initial,
         Some (AudioSegment.set_end_time seg ts,
               "Out queue full; dropping long segment."%string))
      else (st, None)
  end.

(** [try: out_queue.put_nowait(seg) except queue.Full: logging.warning(..)] *)
Definition emit (out : option Handoff) (w : Queue.t AudioSegment.t * Log)
  : Outcome (Queue.t AudioSegment.t * Log) :=
  match out with
  | None => Returned w
  | Some (seg, warning) =>
      match Queue.put_nowait (fst w) seg with
      | Returned q' => Returned (q', snd w)
      | Raised QueueFull => Returned (fst w, logging WARNING warning (snd w))
      | Raised e => Raised e
      | Blocked => Blocked
      end
  end.

(** One iteration on a frame: the body, then the hand-off. *)
Definition step (self : t) (capturer : RealTimeCapturer.t) (st : Locals)
    (frame : Frame) (w : Queue.t AudioSegment.t * Log)
  : Outcome (Locals * (Queue.t AudioSegment.t * Log)) :=
  let '(st', out) := body self capturer st frame in
  w' ← emit out w;
  mret (st', w').

(** One iteration of [run]: [capturer.q.get(timeout=0.1)], and
    [continue] on [queue.Empty]. *)
Definition run_iter (self : t)
    (s : RealTimeCapturer.t * Locals * (Queue.t AudioSegment.t * Log))
  : Outcome (RealTimeCapturer.t * Locals * (Queue.t AudioSegment.t * Log)) :=
  let '(capturer, st, w) := s in
  match Queue.get (q capturer) with
  | Returned (frame, q') =>
      r ← step self capturer st frame w;
      mret (set_q capturer q', fst r, snd r)
  | Raised QueueEmpty => Returned s
  | Raised e => Raised e
  | Blocked => Blocked
  end.

(** The locals and the hand-offs after the frames [frames] were taken
    in this order. *)
Fixpoint feed (self : t) (capturer : RealTimeCapturer.t) (st : Locals)
    (frames : list Frame) : Locals * list Handoff :=
  match frames with
  | [] => (st, [])
  | f :: rest =>
      let '(st', out) := body self capturer st f in
      let '(st'', outs) := feed self capturer st' rest in
      (st'', option_list out ++ outs)
  end.

End Segmenter.

(* ------------------------------------------------------------------ *)
(** ** STT worker *)

Module STTWorker.

(** [STTBackend.transcribe(pcm_bytes, sample_rate)] *)
Definition STTBackend : Type := list Byte.byte -> Z -> Outcome (string * Q).

(** [in_queue], the caption sink and the SRT file are shared; [World] is
    what a worker can change besides its own fields. *)
Record t : Type := mk { stt : STTBackend; seq : Z }.

Record World : Type := mkW {
  ui_calls : list string;
  fs : gmap string string;
  log : Log
}.

Definition __init__ (stt_backend : STTBackend) : t := mk stt_backend 1.

(** The body of the [while] loop after a segment was taken from the
    queue. [sample_rate] is [CONFIG["sample_rate"]]. *)
Definition body (self : t) (sample_rate : Z) (srt_writer : SRTWriter.t)
    (seg : AudioSegment.t) (w : World) : Outcome (t * World) :=
  let pcm_bytes := AudioSegment.get_pcm_bytes seg in
  r ← match stt self pcm_bytes sample_rate with
      | Returned (text, conf) => Returned (text, conf, log w)
      | Raised e =>
          Returned (""%string, 0%Q,
                    logging ERROR ("STT backend error: " +:+ str_of_exc e) (log w))
      | Blocked => Blocked
      end;
  let '(text, conf, log') := r in
  if str_truthy text then
    let ui' := ui_calls w ++ [text] in
    let fs' := SRTWriter.write_entry srt_writer (seq self)
                 (AudioSegment.start_time seg)
                 (or_float (AudioSegment.end_time seg) (AudioSegment.start_time seg))
                 text (fs w) in
    mret (mk (stt self) (seq self + 1), mkW ui' fs' log')
  else mret (self, mkW (ui_calls w) (fs w) log').

(** One iteration of [run]: [in_queue.get(timeout=0.5)], and
    [continue] on [queue.Empty]. *)
Definition run_iter (sample_rate : Z) (srt_writer : SRTWriter.t)
    (s : t * Queue.t AudioSegment.t * World)
  : Outcome (t * Queue.t AudioSegment.t * World) :=
  let '(self, in_queue, w) := s in
  match Queue.get in_queue with
  | Returned (seg, q') =>
      r ← body self sample_rate srt_writer seg w;
      mret (fst r, q', snd r)
  | Raised QueueEmpty => Returned s
  | Raised e => Raised e
  | Blocked => Blocked
  end.

(** The loop on the segments [segs], taken from the queue in this
    order. *)
Fixpoint serve (self : t) (sample_rate : Z) (srt_writer : SRTWriter.t)
    (segs : list AudioSegment.t) (w : World) : Outcome (t * World) :=
  match segs with
  | [] => Returned (self, w)
  | seg :: rest =>
      r ← body self sample_rate srt_writer seg w;
      serve (fst r) sample_rate srt_writer rest (snd r)
  end.

End STTWorker.

(* ------------------------------------------------------------------ *)
(** ** The timestamp layout, as the subtitle format states it *)

Module TimestampSpec.

Definition digit (d : Z) : ascii := ascii_of_nat (48 + Z.to_nat (d mod 10)).

(** [n] written with exactly [w] decimal digits (its last [w] digits,
    zeros in front). *)
Fixpoint fixed_width (w : nat) (n : Z) : string :=
  match w with
  | O => EmptyString
  | S w' => fixed_width w' (n / 10) +:+ String (digit n) EmptyString
  end.

Definition HH (ts : Q) : Z := Qfloor (ts / 3600) mod 100.
Definition MM (ts : Q) : Z := Qfloor (ts / 60) mod 60.
Definition SS (ts : Q) : Z := Qfloor ts mod 60.
Definition mmm (ts : Q) : Z := Qfloor (ts * 1000) mod 1000.

Definition layout (ts : Q) : string :=
  fixed_width 2 (HH ts) +:+ ":" +:+ fixed_width 2 (MM ts) +:+ ":" +:+
  fixed_width 2 (SS ts) +:+ "," +:+ fixed_width 3 (mmm ts).

(** The same layout with the milliseconds taken from the product
    [ts * 1000] as a double holds it. *)
Definition mmm_of_double_product (ts : Q) : Z := Qfloor (float_mul ts 1000) mod 1000.

Definition layout_of_double_product (ts : Q) : string :=
  fixed_width 2 (HH ts) +:+ ":" +:+ fixed_width 2 (MM ts) +:+ ":" +:+
  fixed_width 2 (SS ts) +:+ "," +:+ fixed_width 3 (mmm_of_double_product ts).

End TimestampSpec.

(* ------------------------------------------------------------------ *)
(** ** Vocabulary of the properties *)

Module Trace.

Import RealTimeCapturer.

(** Time stamps never go back along the list. *)
Fixpoint nondecreasing (stamps : list Q) : bool :=
  match stamps with
  | [] => true
  | x :: rest =>
      match rest with
      | [] => true
      | y :: _ => Qle_bool x y && nondecreasing rest
      end
  end.

(** The first stored chunk of [seg] is a speech frame of [frames], and
    [seg] starts at that frame's time stamp. *)
Definition opens_on_speech (capturer : RealTimeCapturer.t)
    (frames : list Frame) (seg : AudioSegment.t) : Prop :=
  exists pcm rest,
    (AudioSegment.samples seg = pcm :: rest) /\
    (Segmenter.classify capturer pcm = true) /\
    In (AudioSegment.start_time seg, pcm) frames.

(** What an emitted segment must look like. *)
Definition well_formed (seg : AudioSegment.t) : Prop :=
  (AudioSegment.samples seg <> []) /\
  exists e, (AudioSegment.end_time seg = Some e) /\
            (AudioSegment.start_time seg <= e)%Q.

(** Inside a segment the silence run stays below the budget: reaching
    it closes the segment on the spot. *)
Definition run_below_budget (self : Segmenter.t) (st : Segmenter.Locals) : Prop :=
  match Segmenter.cur_segment st with
  | Some _ =>
      0 <= Segmenter.silence_frame_count st < Segmenter.max_silence_frames self
  | None => True
  end.

(** What the loop keeps true of an open segment: it holds a chunk, it
    does not start after the last speech frame, and none of the frames
    still to come ([ahead]) is stamped before its start. *)
Definition open_ok (st : Segmenter.Locals) (ahead : list Frame) : Prop :=
  match Segmenter.cur_segment st with
  | Some seg =>
      (AudioSegment.samples seg <> []) /\
      (forall la, Segmenter.last_activity st = Some la ->
                  (AudioSegment.start_time seg <= la)%Q) /\
      Forall (fun f => (AudioSegment.start_time seg <= fst f)%Q) ahead
  | None => True
  end.

End Trace.

(* ------------------------------------------------------------------ *)
(** ** A concrete set-up: the shipped [CONFIG] and a toy detector *)

Module Demo.

Import RealTimeCapturer.

(** A detector that calls any chunk with a nonzero byte speech. *)
Definition energy_vad : Vad :=
  fun bytes _ => existsb (fun b => negb (Byte.eqb b Byte.x00)) bytes.

Definition capturer : RealTimeCapturer.t :=
  RealTimeCapturer.__init__ (fun _ => energy_vad) 16000 30 2 1.

(** [Segmenter(capturer, 250, 700, 10, ...)] *)
Definition segmenter : Segmenter.t := Segmenter.mk 9 24 10.

(** Chunks are kept short; their length plays no role in the segmenter. *)
Definition voiced : list Z := [1200; -800].
Definition silent : list Z := [0; 0].

(** [n] frames holding [pcm], the first at [t0], [dt] apart. *)
Definition frames_at (t0 dt : Q) (n : nat) (pcm : list Z) : list Frame :=
  map (fun k => ((t0 + dt * inject_Z (Z.of_nat k))%Q, pcm)) (seq 0 n).




(** Ten seconds of speech: 334 frames 30 ms apart, the last at 1009.99. *)
Definition long_speech : list Frame := frames_at 1000 (3 # 100) 334 voiced.

(** The first frame of the pause after it, at 1010.02. *)
Definition first_pause : Frame := ((101002 # 100)%Q, silent).

(** A segment opened at 1000 by one speech frame. *)
Definition one_chunk : AudioSegment.t := AudioSegment.mk 1000 None [voiced].

Definition just_opened : Segmenter.Locals :=
  Segmenter.mkL (Some one_chunk) 1 0 (Some 1000%Q).


(** A segment taken from the out queue. *)
Definition spoken : AudioSegment.t := AudioSegment.mk 1000 (Some (1001 # 1)%Q) [voiced; silent].

Definition full_capturer : RealTimeCapturer.t :=
  set_q capturer (Queue.mk 100 (repeat (1000%Q, silent) 100)).

Definition full_out_queue : Queue.t AudioSegment.t := Queue.mk 50 (repeat spoken 50).

Definition failing_backend : STTWorker.STTBackend :=
  fun _ _ => Raised (OtherException "model crashed").

Definition echo_backend : STTWorker.STTBackend :=
  fun _ _ => Returned ("hello"%string, 1%Q).

Definition mute_backend : STTWorker.STTBackend :=
  fun _ _ => Returned (""%string, 0%Q).

End Demo.

(* ------------------------------------------------------------------ *)
(** ** [str] fragments: [strip] *)

Module Str.

(** [str.isspace] on one character, for code points below 256. *)
Definition isspace (c : ascii) : bool :=
  let n := nat_of_ascii c in
  ((9 <=? n)%nat && (n <=? 13)%nat) || ((28 <=? n)%nat && (n <=? 32)%nat) ||
  (n =? 133)%nat || (n =? 160)%nat.

Fixpoint lstrip (s : string) : string :=
  match s with
  | EmptyString => EmptyString
  | String c rest => if isspace c then lstrip rest else s
  end.

(** Drops the white space at the end: a character stays when it is not
    white space or when something stays after it. *)
Fixpoint rstrip (s : string) : string :=
  match s with
  | EmptyString => EmptyString
  | String c rest =>
      match rstrip rest with
      | EmptyString => if isspace c then EmptyString else String c EmptyString
      | kept => String c kept
      end
  end.

(** [s.strip()] *)
Definition strip (s : string) : string := rstrip (lstrip s).

End Str.

(* ------------------------------------------------------------------ *)
(** ** VOSK backend *)

Module VoskBackend.

(** The recognizer library, as [transcribe] uses it: [final_result]
    stands for [KaldiRecognizer(model, sample_rate)] fed the given pieces
    with [AcceptWaveform], then asked for [FinalResult()]; [json_text]
    stands for [json.loads(res).get("text", "")]. *)
Record t : Type := mk {
  final_result : Z -> list (list Byte.byte) -> string;
  json_text : string -> Outcome string;
  sample_rate : Z
}.

Definition chunk_size : nat := 4000.

(** The [while pos < len(pcm_bytes)] loop: the pieces handed to
    [AcceptWaveform], in order.  [fuel] bounds the number of turns. *)
Fixpoint pieces_from (fuel : nat) (pos : nat) (pcm_bytes : list Byte.byte)
  : list (list Byte.byte) :=
  match fuel with
  | O => []
  | S fuel' =>
      if (pos <? length pcm_bytes)%nat then
        take chunk_size (drop pos pcm_bytes)
          :: pieces_from fuel' (pos + chunk_size) pcm_bytes
      else []
  end.

(** One turn per byte is more than the loop can take. *)
Definition pieces (pcm_bytes : list Byte.byte) : list (list Byte.byte) :=
  pieces_from (length pcm_bytes) 0 pcm_bytes.

Definition transcribe (self : t) (pcm_bytes : list Byte.byte) (sample_rate : Z)
  : Outcome (string * Q) :=
  let res := final_result self sample_rate (pieces pcm_bytes) in
  match json_text self res with
  | Returned raw =>
      let text := Str.strip raw in
      let conf := (inject_Z (Z.of_nat (String.length text)) /
                   inject_Z (Z.max 1 (Z.of_nat (length pcm_bytes))))%Q in
      Returned (text, conf)
  | Raised _ => Returned (""%string, 0%Q)
  | Blocked => Blocked
  end.

End VoskBackend.

(* ------------------------------------------------------------------ *)
(** ** Caption overlay: the slot behind [show_caption] *)

Module CaptionOverlay.

(** The fields the slots change: the label text, the window geometry
    [(x, y, w, h)], whether the window is shown, and the interval the
    single-shot hide timer was last started with (in ms), if it runs. *)
Record t : Type := mk {
  timeout : Q;
  _last_text : string;
  label_text : string;
  geometry : Z * Z * Z * Z;
  visible : bool;
  hide_timer : option Z
}.

Definition __init__ (timeout : Q) : t :=
  mk timeout ""%string ""%string (0, 0, 0, 0) false None.

(** [screen] is the size of the primary screen; [label_size text maxw]
    is the size Qt gives the label for this text and maximum width.
    The literal [0.6] is the double nearest to 6/10. *)
Definition adjust_size_and_position (screen : Z * Z)
    (label_size : string -> Z -> Z * Z) (self : t) : t :=
  let '(width, height) := screen in
  let maxw := int_of_float (float_mul (inject_Z width) (to_double (6 # 10))) in
  let '(w, h) := label_size (label_text self) maxw in
  let x := (width - w) / 2 in
  let y := height - h - 120 in
  mk (timeout self) (_last_text self) (label_text self) (x, y, w, h)
     (visible self) (hide_timer self).

Definition _set_caption (screen : Z * Z) (label_size : string -> Z -> Z * Z)
    (self : t) (text : string) : t :=
  if negb (str_truthy (Str.strip text)) then self
  else
    let last := Str.strip text in
    let self := mk (timeout self) last last (geometry self)
                   (visible self) (hide_timer self) in
    let self := adjust_size_and_position screen label_size self in
    mk (timeout self) (_last_text self) (label_text self) (geometry self)
       true (Some (int_of_float (float_mul (timeout self) 1000))).

(** Also what the timer runs when it fires. *)
Definition hide_caption (self : t) : t :=
  mk (timeout self) (_last_text self) (label_text self) (geometry self)
     false (hide_timer self).

End CaptionOverlay.

(** What reaches the overlay: a caption for the slot, or the hide timer
    firing. *)
Module OverlayTrace.

Inductive Event : Type :=
| Caption (text : string)
| TimerFires.

Definition react (screen : Z * Z) (label_size : string -> Z -> Z * Z)
    (self : CaptionOverlay.t) (ev : Event) : CaptionOverlay.t :=
  match ev with
  | Caption text => CaptionOverlay._set_caption screen label_size self text
  | TimerFires => CaptionOverlay.hide_caption self
  end.

Definition run (screen : Z * Z) (label_size : string -> Z -> Z * Z)
    (self : CaptionOverlay.t) (events : list Event) : CaptionOverlay.t :=
  fold_left (react screen label_size) events self.

(** All characters are white space. *)
Fixpoint blank (s : string) : bool :=
  match s with
  | EmptyString => true
  | String c rest => Str.isspace c && blank rest
  end.

(** What the overlay looks like at rest, on a screen of the given size
    and with the timeout [t0] it was built with. *)
Definition well_shown (screen_w screen_h : Z) (label_size : string -> Z -> Z * Z)
    (t0 : Q) (o : CaptionOverlay.t) : Prop :=
  (CaptionOverlay.timeout o = t0) /\
  (CaptionOverlay._last_text o = CaptionOverlay.label_text o) /\
  (Str.strip (CaptionOverlay.label_text o) = CaptionOverlay.label_text o) /\
  (CaptionOverlay.visible o = true ->
   (CaptionOverlay.label_text o <> ""%string) /\
   (CaptionOverlay.hide_timer o = Some (int_of_float (float_mul t0 1000))) /\
   exists x y w h,
     (CaptionOverlay.geometry o = (x, y, w, h)) /\
     ((w, h) = label_size (CaptionOverlay.label_text o)
                          (int_of_float (float_mul (inject_Z screen_w) (to_double (6 # 10))))) /\
     (y + h = screen_h - 120) /\
     (0 <= (screen_w - w) - 2 * x <= 1)).

End OverlayTrace.

(* ------------------------------------------------------------------ *)
(** ** The loops, a number of turns at a time *)

Module Loops.

(** Audio blocks as the sound device delivers them: [(indata, status, ts)]. *)
Definition Block : Type := list (list Z) * string * Q.

(** The callback on successive blocks. *)
Fixpoint callbacks (self : RealTimeCapturer.t) (blocks : list Block) (log : Log)
  : Outcome (RealTimeCapturer.t * Log) :=
  match blocks with
  | [] => Returned (self, log)
  | (indata, status, ts) :: rest =>
      r ← RealTimeCapturer._callback self indata status ts log;
      callbacks (fst r) rest (snd r)
  end.

(** What the callback makes of a block. *)
Definition to_frame (self : RealTimeCapturer.t) (b : Block) : RealTimeCapturer.Frame :=
  let '(indata, status, ts) := b in
  (ts, if 1 <? RealTimeCapturer.channels self
       then map Np.mean_int16 indata else concat indata).

(** [n] turns of [Segmenter.run] before the stop flag is seen. *)
Fixpoint segmenter_run (n : nat) (self : Segmenter.t)
    (s : RealTimeCapturer.t * Segmenter.Locals * (Queue.t AudioSegment.t * Log))
  : Outcome (RealTimeCapturer.t * Segmenter.Locals * (Queue.t AudioSegment.t * Log)) :=
  match n with
  | O => Returned s
  | S n' => s' ← Segmenter.run_iter self s; segmenter_run n' self s'
  end.

(** [n] turns of [STTWorker.run] before the stop flag is seen. *)
Fixpoint worker_run (n : nat) (sample_rate : Z) (srt_writer : SRTWriter.t)
    (s : STTWorker.t * Queue.t AudioSegment.t * STTWorker.World)
  : Outcome (STTWorker.t * Queue.t AudioSegment.t * STTWorker.World) :=
  match n with
  | O => Returned s
  | S n' =>
      s' ← STTWorker.run_iter sample_rate srt_writer s;
      worker_run n' sample_rate srt_writer s'
  end.

End Loops.

(* ------------------------------------------------------------------ *)
(** ** The loops with the calls that can fail

    [Segmenter.run] calls [vad.is_speech] outside any [try], and
    [STTWorker.run] calls [ui_callback] and [write_entry] after its
    [try]: what these calls raise ends the thread. Here they are calls
    with an [Outcome]. *)

Module Fallible.

Import RealTimeCapturer.

(** [webrtcvad.Vad.is_speech(buf, sample_rate)]: it raises on a frame
    length or a sample rate the detector does not support. *)
Definition Detector : Type := list Byte.byte -> Z -> Outcome bool.

(** The capturer once the detector has returned [is_speech] for the
    frame at hand. *)
Definition classified (capturer : RealTimeCapturer.t) (is_speech : bool)
  : RealTimeCapturer.t :=
  mk (sample_rate capturer) (block_duration_ms capturer) (block_size capturer)
     (channels capturer) (fun _ _ => is_speech) (q capturer) (running capturer).

(** One iteration of [Segmenter.run]: [q.get], the detector, the body
    and the hand-off. *)
Definition segmenter_iter (detector : Detector) (self : Segmenter.t)
    (s : RealTimeCapturer.t * Segmenter.Locals * (Queue.t AudioSegment.t * Log))
  : Outcome (RealTimeCapturer.t * Segmenter.Locals * (Queue.t AudioSegment.t * Log)) :=
  let '(capturer, st, w) := s in
  match Queue.get (q capturer) with
  | Returned (frame, q') =>
      is_speech ← detector (Np.tobytes (snd frame)) (sample_rate capturer);
      r ← Segmenter.step self (classified capturer is_speech) st frame w;
      mret (set_q capturer q', fst r, snd r)
  | Raised QueueEmpty => Returned s
  | Raised e => Raised e
  | Blocked => Blocked
  end.

(** [n] turns of [Segmenter.run] before the stop flag is seen. *)
Fixpoint segmenter_run (detector : Detector) (n : nat) (self : Segmenter.t)
    (s : RealTimeCapturer.t * Segmenter.Locals * (Queue.t AudioSegment.t * Log))
  : Outcome (RealTimeCapturer.t * Segmenter.Locals * (Queue.t AudioSegment.t * Log)) :=
  match n with
  | O => Returned s
  | S n' => s' ← segmenter_iter detector self s; segmenter_run detector n' self s'
  end.

(** The detector returns on each of [frames], with the class that the
    capturer's [vad] field gives. *)
Definition accepts (detector : Detector) (capturer : RealTimeCapturer.t)
    (frames : list Frame) : Prop :=
  Forall (fun f => detector (Np.tobytes (snd f)) (sample_rate capturer) =
                   Returned (Segmenter.classify capturer (snd f))) frames.

(** The caption callback (it emits a Qt signal) and the subtitle writer
    (it opens the file) as [STTWorker.run] calls them. *)
Record Sinks : Type := mkSinks {
  ui_callback : string -> list string -> Outcome (list string);
  write_entry : SRTWriter.t -> Z -> Q -> Q -> string -> gmap string string ->
                Outcome (gmap string string)
}.

(** Sinks that always return. *)
Definition reliable : Sinks :=
  mkSinks (fun text calls => Returned (calls ++ [text]))
          (fun srt_writer idx start_ts end_ts text fs =>
             Returned (SRTWriter.write_entry srt_writer idx start_ts end_ts text fs)).

(** The body of the [while] loop of [STTWorker.run] after a segment was
    taken from the queue. *)
Definition worker_body (sinks : Sinks) (self : STTWorker.t) (sample_rate : Z)
    (srt_writer : SRTWriter.t) (seg : AudioSegment.t) (w : STTWorker.World)
  : Outcome (STTWorker.t * STTWorker.World) :=
  let pcm_bytes := AudioSegment.get_pcm_bytes seg in
  r ← match STTWorker.stt self pcm_bytes sample_rate with
      | Returned (text, conf) => Returned (text, conf, STTWorker.log w)
      | Raised e =>
          Returned (""%string, 0%Q,
                    logging ERROR ("STT backend error: " +:+ str_of_exc e)
                            (STTWorker.log w))
      | Blocked => Blocked
      end;
  let '(text, conf, log') := r in
  if str_truthy text then
    ui' ← ui_callback sinks text (STTWorker.ui_calls w);
    fs' ← write_entry sinks srt_writer (STTWorker.seq self)
            (AudioSegment.start_time seg)
            (or_float (AudioSegment.end_time seg) (AudioSegment.start_time seg))
            text (STTWorker.fs w);
    mret (STTWorker.mk (STTWorker.stt self) (STTWorker.seq self + 1),
          STTWorker.mkW ui' fs' log')
  else mret (self, STTWorker.mkW (STTWorker.ui_calls w) (STTWorker.fs w) log').



End Fallible.

(* ------------------------------------------------------------------ *)
(** ** A toy recognizer and a toy label for worked instances *)

Module Toy.

(** A detector with the checks of webrtcvad: the sample rate is one of
    8000, 16000, 32000 and 48000, and the frame lasts 10, 20 or 30 ms;
    any other frame raises. On a frame it accepts it answers as
    [Demo.energy_vad]. *)
Definition detector : Fallible.Detector :=
  fun bytes sample_rate =>
    let samples := Z.of_nat (length bytes) / 2 in
    if ((sample_rate =? 8000) || (sample_rate =? 16000) ||
        (sample_rate =? 32000) || (sample_rate =? 48000)) &&
       ((samples * 100 =? sample_rate) || (samples * 50 =? sample_rate) ||
        (samples * 100 =? 3 * sample_rate))
    then Returned (Demo.energy_vad bytes sample_rate)
    else Raised (OtherException "Error while processing frame").

(** Frames of 30 ms at 16 kHz, and a frame cut short. *)
Definition voiced_frame : list Z := repeat 1200 480.
Definition silent_frame : list Z := repeat 0 480.
Definition cut_frame : list Z := repeat 1200 100.


(** Hears "hello", with white space around it, in any audio at all;
    an empty result is not JSON. *)
Definition vosk : VoskBackend.t :=
  VoskBackend.mk
    (fun _ pieces => match pieces with [] => ""%string | _ => " hello "%string end)
    (fun res => match res with
                | EmptyString => Raised (OtherException "Expecting value")
                | _ => Returned res
                end)
    16000.

(** Eight pixels per character, one line of 40 pixels, cut at [maxw]. *)
Definition label_size (text : string) (maxw : Z) : Z * Z :=
  (Z.min maxw (8 * Z.of_nat (String.length text)), 40).

End Toy.

(* ------------------------------------------------------------------ *)
(** ** Reading a subtitle stamp back *)

Module StampReader.






End StampReader.

(* ------------------------------------------------------------------ *)
(** ** More vocabulary *)

Module Shape.

Import RealTimeCapturer.

(** [chunks] ends with a speech chunk followed by exactly [k] silent ones. *)
Definition ends_in_silence (capturer : RealTimeCapturer.t) (k : Z)
    (chunks : list (list Z)) : Prop :=
  exists front speech run,
    (chunks = front ++ speech :: run) /\
    (Segmenter.classify capturer speech = true) /\
    Forall (fun c => Segmenter.classify capturer c = false) run /\
    (Z.of_nat (length run) = k).

(** An entry of the subtitle file: index, start, end, text. *)
Definition Entry : Type := Z * Q * Q * string.

Definition entry_index (e : Entry) : Z := fst (fst (fst e)).
Definition entry_caption (e : Entry) : string := snd e.

(** The file after [entries] were appended to [old]. *)
Definition appended (old : string) (entries : list Entry) : string :=
  fold_left (fun acc e => let '(idx, start_ts, end_ts, text) := e in
                          acc +:+ SRTWriter.entry_text idx start_ts end_ts text)
            entries old.

(** How many of the frames the detector calls speech. *)
Definition speech_count (capturer : RealTimeCapturer.t) (frames : list Frame) : nat :=
  length (List.filter (fun f => Segmenter.classify capturer (snd f)) frames).

(** 1 while a segment is open, 0 in idle. *)
Definition open_count (st : Segmenter.Locals) : nat :=
  match Segmenter.cur_segment st with
  | Some _ => 1
  | None => 0
  end.

(** [first], [first + 1], ... ([n] numbers). *)
Definition consecutive (first : Z) (n : nat) : list Z :=
  map (fun k => first + Z.of_nat k) (seq 0 n).

End Shape.

(* ================================================================== *)
(** * Properties *)

(** ** Binary64 rounding *)

Section Binary64.

Lemma pow2_pos (e : Z) : (0 < pow2 e)%Q.
Proof. apply Qpower_0_lt. reflexivity. Qed.

Lemma pow2_add (a b : Z) : (pow2 (a + b) == pow2 a * pow2 b)%Q.
Proof. apply Qpower_plus. discriminate. Qed.

Lemma pow2_Z (e : Z) : 0 <= e -> (pow2 e == inject_Z (2 ^ e))%Q.
Proof. intros H. unfold pow2. rewrite Zpower_Qpower by exact H. reflexivity. Qed.

Lemma pow2_le (a b : Z) : a <= b -> (pow2 a <= pow2 b)%Q.
Proof.
  intros H. replace b with (a + (b - a)) by lia. rewrite pow2_add.
  rewrite <- (Qmult_1_r (pow2 a)) at 1.
  apply Qmult_le_l; [apply pow2_pos |].
  rewrite pow2_Z by lia. change 1%Q with (inject_Z 1). rewrite <- Zle_Qle.
  pose proof (Z.pow_pos_nonneg 2 (b - a)). lia.
Qed.

Lemma pow2_neg_mul (j : Z) : j <= 0 -> (inject_Z (2 ^ (- j)) * pow2 j == 1)%Q.
Proof.
  intros H. rewrite <- pow2_Z by lia. rewrite <- pow2_add.
  replace (- j + j) with 0 by lia. reflexivity.
Qed.

Lemma binade_le (x : Q) : (0 < x)%Q -> (pow2 (binade x) <= x)%Q.
Proof.
  intros Hx. unfold binade.
  set (e0 := Z.log2 (Qnum x) - Z.log2 (Z.pos (Qden x))).
  destruct (Qle_bool (pow2 e0) x) eqn:E; [apply Qle_bool_iff; exact E |].
  destruct x as [n d]. unfold Qlt in Hx. cbn [Qnum Qden] in Hx, e0.
  change (Qnum 0) with 0 in Hx. rewrite Z.mul_0_l, Z.mul_1_r in Hx.
  assert (Hn : 2 ^ Z.log2 n <= n) by (apply Z.log2_spec; lia).
  assert (Hd : Z.pos d < 2 ^ (Z.log2 (Z.pos d) + 1)).
  { pose proof (Z.log2_spec (Z.pos d) ltac:(lia)) as H. 
    replace (Z.log2 (Z.pos d) + 1) with (Z.succ (Z.log2 (Z.pos d))) by lia. lia. }
  pose proof (Z.log2_nonneg n) as Hn0. pose proof (Z.log2_nonneg (Z.pos d)) as Hd0.
  set (a := Z.log2 n) in *. set (b := Z.log2 (Z.pos d)) in *.
  (* pow2 (a - b - 1) * 2^(b+1) == 2^a *)
  assert (Heq : (pow2 (e0 - 1) * inject_Z (2 ^ (b + 1)) == inject_Z (2 ^ a))%Q).
  { rewrite <- !pow2_Z by lia. rewrite <- pow2_add.
    replace (e0 - 1 + (b + 1)) with a by (unfold e0; lia). reflexivity. }
  assert (Hb1 : (0 < inject_Z (2 ^ (b + 1)))%Q).
  { change 0%Q with (inject_Z 0). rewrite <- Zlt_Qlt. apply Z.pow_pos_nonneg; lia. }
  (* compare after multiplying by 2^(b+1) *)
  apply (Qmult_le_r _ _ (inject_Z (2 ^ (b + 1)))); [exact Hb1 |].
  rewrite Heq.
  apply Qle_trans with (inject_Z n); [rewrite <- Zle_Qle; exact Hn |].
  (* n <= (n # d) * 2^(b+1) *)
  unfold Qle, Qmult, inject_Z. simpl. rewrite !Z.mul_1_r.
  rewrite Pos.mul_1_r.
  assert (0 < 2 ^ (b + 1)) by (apply Z.pow_pos_nonneg; lia).
  nia.
Qed.

Lemma binade_lt (x : Q) (k : Z) : (0 < x)%Q -> (x < pow2 k)%Q -> binade x < k.
Proof.
  intros Hx Hk. destruct (Z_lt_le_dec (binade x) k) as [H | H]; [exact H |].
  exfalso. apply (Qlt_irrefl x).
  apply Qlt_le_trans with (pow2 k); [exact Hk |].
  apply Qle_trans with (pow2 (binade x)); [apply pow2_le; exact H | apply binade_le; exact Hx].
Qed.

Lemma ulp_pos (x : Q) : (0 < ulp x)%Q.
Proof. apply pow2_pos. Qed.

Lemma round_half_even_floor (y : Q) : Qfloor y <= round_half_even y <= Qfloor y + 1.
Proof.
  unfold round_half_even.
  destruct (y - inject_Z (Qfloor y) ?= 1 # 2)%Q; [destruct (Z.even (Qfloor y)) | |]; lia.
Qed.

Lemma round_half_even_ge (y : Q) (K : Z) : (inject_Z K <= y)%Q -> K <= round_half_even y.
Proof.
  intros H. pose proof (round_half_even_floor y).
  assert (K <= Qfloor y) by (apply Qfloor_resp_le in H; rewrite Qfloor_Z in H; exact H).
  lia.
Qed.

Lemma round_half_even_le (y : Q) (K : Z) : (y <= inject_Z K)%Q -> round_half_even y <= K.
Proof.
  intros H. 
  destruct (Qlt_le_dec y (inject_Z K)) as [Hlt | Hge].
  - pose proof (round_half_even_floor y).
    assert (Qfloor y < K).
    { rewrite Zlt_Qlt. apply Qle_lt_trans with y; [apply Qfloor_le | exact Hlt]. }
    lia.
  - assert (Hy : (y == inject_Z K)%Q) by (apply Qle_antisym; assumption).
    unfold round_half_even.
    assert (Hf : Qfloor y = K) by (rewrite Hy; apply Qfloor_Z).
    rewrite Hf.
    assert (Hc : (y - inject_Z K ?= 1 # 2)%Q = Lt).
    { rewrite <- Qlt_alt. rewrite Hy. unfold Qminus. rewrite Qplus_opp_r. reflexivity. }
    rewrite Hc. lia.
Qed.

Lemma round_half_even_lt (y : Q) (K : Z) :
  (y < inject_Z K - (1 # 2))%Q -> round_half_even y < K.
Proof.
  intros H.
  assert (Hy : (y < inject_Z K)%Q).
  { apply Qlt_trans with (inject_Z K - (1 # 2))%Q; [exact H |].
    rewrite <- (Qplus_0_r (inject_Z K)) at 2. unfold Qminus.
    apply Qplus_lt_r. reflexivity. }
  assert (Hf : Qfloor y < K).
  { rewrite Zlt_Qlt. apply Qle_lt_trans with y; [apply Qfloor_le | exact Hy]. }
  unfold round_half_even.
  destruct (Z.eq_dec (Qfloor y) (K - 1)) as [E | E].
  - assert (Hc : (y - inject_Z (Qfloor y) ?= 1 # 2)%Q = Lt).
    { rewrite <- Qlt_alt. rewrite E.
      apply (Qplus_lt_l _ _ (inject_Z (K - 1))).
      unfold Qminus. rewrite <- Qplus_assoc, (Qplus_comm (- _)), Qplus_opp_r, Qplus_0_r.
      apply Qlt_le_trans with (inject_Z K - (1 # 2))%Q; [exact H |].
      unfold Z.sub. rewrite inject_Z_plus. 
      unfold Qminus. rewrite (Qplus_comm (1 # 2)), <- Qplus_assoc.
      apply Qplus_le_r. vm_compute. discriminate. }
    rewrite Hc. lia.
  - destruct (y - inject_Z (Qfloor y) ?= 1 # 2)%Q; [destruct (Z.even (Qfloor y)) | |]; lia.
Qed.


Lemma round_half_even_gt (y : Q) (K : Z) :
  (inject_Z K + (1 # 2) < y)%Q -> K < round_half_even y.
Proof.
  intros H.
  assert (Hf : K <= Qfloor y).
  { assert (Hy : (inject_Z K <= y)%Q) by lra.
    apply Qfloor_resp_le in Hy. rewrite Qfloor_Z in Hy. exact Hy. }
  unfold round_half_even.
  destruct (Z.eq_dec (Qfloor y) K) as [E | E].
  - assert (Hc : (y - inject_Z (Qfloor y) ?= 1 # 2)%Q = Gt).
    { rewrite <- Qgt_alt. rewrite E. lra. }
    rewrite Hc. lia.
  - destruct (y - inject_Z (Qfloor y) ?= 1 # 2)%Q; [destruct (Z.even (Qfloor y)) | |]; lia.
Qed.

Lemma to_double_pos (x : Q) :
  (0 < x)%Q -> to_double x = (inject_Z (round_half_even (x / ulp x)) * ulp x)%Q.
Proof.
  intros H. unfold to_double.
  assert (Hc : (x ?= 0)%Q = Gt) by (rewrite <- Qgt_alt; exact H).
  rewrite Hc. reflexivity.
Qed.

Lemma div_ulp_le (x a : Q) : (a * ulp x <= x)%Q -> (a <= x / ulp x)%Q.
Proof.
  intros H. pose proof (ulp_pos x) as Hu.
  apply (Qmult_le_r _ _ (ulp x)); [exact Hu |].
  unfold Qdiv. rewrite <- Qmult_assoc, (Qmult_comm (/ _)), Qmult_inv_r, Qmult_1_r; [exact H |].
  intros E. rewrite E in Hu. exact (Qlt_irrefl _ Hu).
Qed.

Lemma div_ulp_ge (x a : Q) : (x <= a * ulp x)%Q -> (x / ulp x <= a)%Q.
Proof.
  intros H. pose proof (ulp_pos x) as Hu.
  apply (Qmult_le_r _ _ (ulp x)); [exact Hu |].
  unfold Qdiv. rewrite <- Qmult_assoc, (Qmult_comm (/ _)), Qmult_inv_r, Qmult_1_r; [exact H |].
  intros E. rewrite E in Hu. exact (Qlt_irrefl _ Hu).
Qed.

Lemma div_ulp_lt (x a : Q) : (a * ulp x < x)%Q -> (a < x / ulp x)%Q.
Proof.
  intros H. pose proof (ulp_pos x) as Hu.
  apply (Qmult_lt_r _ _ (ulp x)); [exact Hu |].
  unfold Qdiv. rewrite <- Qmult_assoc, (Qmult_comm (/ _)), Qmult_inv_r, Qmult_1_r; [exact H |].
  intros E. rewrite E in Hu. exact (Qlt_irrefl _ Hu).
Qed.

Lemma div_ulp_gt (x a : Q) : (x < a * ulp x)%Q -> (x / ulp x < a)%Q.
Proof.
  intros H. pose proof (ulp_pos x) as Hu.
  apply (Qmult_lt_r _ _ (ulp x)); [exact Hu |].
  unfold Qdiv. rewrite <- Qmult_assoc, (Qmult_comm (/ _)), Qmult_inv_r, Qmult_1_r; [exact H |].
  intros E. rewrite E in Hu. exact (Qlt_irrefl _ Hu).
Qed.

(** Rounding does not cross a double: a multiple of the spacing below
    [x] stays below, one above stays above. *)
Lemma to_double_ge (x : Q) (K : Z) :
  (0 < x)%Q -> (inject_Z K * ulp x <= x)%Q -> (inject_Z K * ulp x <= to_double x)%Q.
Proof.
  intros Hx H. rewrite (to_double_pos x Hx).
  apply Qmult_le_compat_r; [| apply Qlt_le_weak, ulp_pos].
  rewrite <- Zle_Qle. apply round_half_even_ge, div_ulp_le, H.
Qed.

Lemma to_double_le (x : Q) (K : Z) :
  (0 < x)%Q -> (x <= inject_Z K * ulp x)%Q -> (to_double x <= inject_Z K * ulp x)%Q.
Proof.
  intros Hx H. rewrite (to_double_pos x Hx).
  apply Qmult_le_compat_r; [| apply Qlt_le_weak, ulp_pos].
  rewrite <- Zle_Qle. apply round_half_even_le, div_ulp_ge, H.
Qed.

(** More than half a spacing away from a double, rounding stays on
    its side of it. *)
Lemma to_double_lt (x : Q) (K : Z) :
  (0 < x)%Q -> (x < (inject_Z K - (1 # 2)) * ulp x)%Q ->
  (to_double x <= inject_Z (K - 1) * ulp x)%Q.
Proof.
  intros Hx H. rewrite (to_double_pos x Hx).
  apply Qmult_le_compat_r; [| apply Qlt_le_weak, ulp_pos].
  rewrite <- Zle_Qle.
  assert (round_half_even (x / ulp x) < K) by (apply round_half_even_lt, div_ulp_gt, H).
  lia.
Qed.

Lemma to_double_gt (x : Q) (K : Z) :
  (0 < x)%Q -> ((inject_Z K + (1 # 2)) * ulp x < x)%Q ->
  (inject_Z (K + 1) * ulp x <= to_double x)%Q.
Proof.
  intros Hx H. rewrite (to_double_pos x Hx).
  apply Qmult_le_compat_r; [| apply Qlt_le_weak, ulp_pos].
  rewrite <- Zle_Qle.
  assert (K < round_half_even (x / ulp x)) by (apply round_half_even_gt, div_ulp_lt, H).
  lia.
Qed.

(** Every integer is a multiple of a power of two that is at most 1. *)
Lemma integer_on_grid (j N : Z) :
  j <= 0 -> (inject_Z N == inject_Z (N * 2 ^ (- j)) * pow2 j)%Q.
Proof.
  intros Hj. rewrite inject_Z_mult, <- Qmult_assoc, pow2_neg_mul by exact Hj.
  rewrite Qmult_1_r. reflexivity.
Qed.

Lemma pow2_lt_Z (m k : Z) : 0 <= k -> m < 2 ^ k -> (inject_Z m < pow2 k)%Q.
Proof. intros Hk H. rewrite pow2_Z by exact Hk. rewrite <- Zlt_Qlt. exact H. Qed.

Lemma float_mul_1000_whole_seconds (ts : Q) :
  is_double ts -> (0 <= ts)%Q -> (ts * 1000 < pow2 53)%Q ->
  (0 <= float_mul ts 1000)%Q /\
  Qfloor (float_mul ts 1000) / 1000 = Qfloor ts.
Proof.
  intros (M & e & HM & He & Hts) H0 Hb. unfold float_mul.
  set (x := (ts * 1000)%Q) in *.
  destruct (Qlt_le_dec 0 ts) as [Hpos | Hz].
  2:{ assert (Hts0 : (ts == 0)%Q) by lra.
      assert (Hx0 : (x ?= 0)%Q = Eq) by (rewrite <- Qeq_alt; unfold x; lra).
      unfold to_double. rewrite Hx0. split; [lra |].
      rewrite Hts0. reflexivity. }
  assert (Hx : (0 < x)%Q) by (unfold x; lra).
  set (n := Qfloor ts).
  assert (Hn1 : (inject_Z n <= ts)%Q) by apply Qfloor_le.
  assert (Hn2 : (ts < inject_Z (n + 1))%Q) by apply Qlt_floor.
  rewrite inject_Z_plus in Hn2. change (inject_Z 1) with 1%Q in Hn2.
  assert (Hn0 : 0 <= n).
  { unfold n. change 0 with (Qfloor 0). apply Qfloor_resp_le. exact H0. }
  set (j := Z.max (binade x) (-1022) - 52).
  assert (Hu : ulp x = pow2 j) by reflexivity.
  assert (Hj : j <= 0) by (pose proof (binade_lt x 53 Hx Hb); lia).
  pose proof (pow2_pos j) as Hupos.
  (* the spacing is below 2000 times the distance to the next second *)
  assert (Hgap : (pow2 j < 2000 * (inject_Z n + 1 - ts))%Q).
  { destruct (Z_le_gt_dec 0 e) as [He0 | He0].
    - assert (Hint : (ts == inject_Z (M * 2 ^ e))%Q).
      { rewrite Hts, inject_Z_mult, pow2_Z by exact He0. reflexivity. }
      assert (Hn : n = M * 2 ^ e) by (unfold n; rewrite Hint; apply Qfloor_Z).
      rewrite Hn, <- Hint.
      assert (Hle : (pow2 j <= pow2 0)%Q) by (apply pow2_le; exact Hj).
      change (pow2 0) with 1%Q in Hle. lra.
    - set (D := (n + 1) * 2 ^ (- e) - M).
      assert (HD : (inject_Z n + 1 - ts == inject_Z D * pow2 e)%Q).
      { unfold D. unfold Z.sub at 1. rewrite inject_Z_plus, inject_Z_opp.
        rewrite Qmult_plus_distr_l. rewrite <- (integer_on_grid e (n + 1)) by lia.
        rewrite inject_Z_plus. change (inject_Z 1) with 1%Q. rewrite Hts. lra. }
      pose proof (pow2_pos e) as Hepos.
      assert (HD1 : 1 <= D).
      { destruct (Z_le_gt_dec D 0) as [Hle | Hgt]; [| lia]. exfalso.
        assert (Hq : (inject_Z D <= 0)%Q)
          by (change 0%Q with (inject_Z 0); rewrite <- Zle_Qle; exact Hle).
        assert (Hprod : (inject_Z D * pow2 e <= 0)%Q) by nra.
        lra. }
      assert (HDq : (1 <= inject_Z D)%Q)
        by (change 1%Q with (inject_Z 1); rewrite <- Zle_Qle; exact HD1).
      assert (Hdist : (pow2 e <= inject_Z n + 1 - ts)%Q) by (rewrite HD; nra).
      (* x < 2^(63+e) *)
      assert (HMq : (inject_Z M < pow2 53)%Q) by (apply pow2_lt_Z; lia).
      assert (HMpos : (0 < inject_Z M)%Q).
      { destruct (Qlt_le_dec 0 (inject_Z M)) as [H | H]; [exact H |]. exfalso.
        assert ((inject_Z M * pow2 e <= 0)%Q) by nra. lra. }
      assert (Hxe : (x < pow2 (63 + e))%Q).
      { replace (63 + e) with (10 + (53 + e)) by lia. rewrite !pow2_add.
        change (pow2 10) with 1024%Q. unfold x. rewrite Hts.
        assert ((inject_Z M * pow2 e < pow2 53 * pow2 e)%Q)
          by (apply Qmult_lt_compat_r; assumption).
        pose proof (pow2_pos 53). nra. }
      pose proof (binade_lt x (63 + e) Hx Hxe) as Hbin.
      assert (Hje : j <= 10 + e) by lia.
      assert (Hle : (pow2 j <= pow2 (10 + e))%Q) by (apply pow2_le; exact Hje).
      rewrite pow2_add in Hle. change (pow2 10) with 1024%Q in Hle. lra. }
  (* lower bound *)
  assert (Hlow : (inject_Z (1000 * n) <= to_double x)%Q).
  { rewrite (integer_on_grid j (1000 * n) Hj), <- Hu.
    apply (to_double_ge x _ Hx). rewrite Hu, <- integer_on_grid by exact Hj.
    rewrite inject_Z_mult. change (inject_Z 1000) with 1000%Q. unfold x. lra. }
  (* upper bound *)
  assert (Hup : (to_double x < inject_Z (1000 * (n + 1)))%Q).
  { set (K := 1000 * (n + 1) * 2 ^ (- j)).
    assert (HK : (inject_Z (1000 * (n + 1)) == inject_Z K * pow2 j)%Q)
      by (apply integer_on_grid; exact Hj).
    assert (HY : (inject_Z (1000 * (n + 1)) == 1000 * (inject_Z n + 1))%Q).
    { rewrite inject_Z_mult, inject_Z_plus. reflexivity. }
    apply Qle_lt_trans with (inject_Z (K - 1) * ulp x)%Q.
    - apply (to_double_lt x K Hx). rewrite Hu.
      assert (E : ((inject_Z K - (1 # 2)) * pow2 j ==
                   inject_Z K * pow2 j - (1 # 2) * pow2 j)%Q) by ring.
      rewrite E, <- HK, HY. unfold x. lra.
    - rewrite Hu. unfold Z.sub. rewrite inject_Z_plus, Qmult_plus_distr_l, <- HK.
      change (inject_Z (- (1))) with (- (1))%Q. lra. }
  split.
  { apply Qle_trans with (inject_Z (1000 * n)); [| exact Hlow].
    change 0%Q with (inject_Z 0). rewrite <- Zle_Qle. lia. }
  assert (H1 : 1000 * n <= Qfloor (to_double x)).
  { apply Qfloor_resp_le in Hlow. rewrite Qfloor_Z in Hlow. exact Hlow. }
  assert (H2 : Qfloor (to_double x) < 1000 * (n + 1)).
  { rewrite Zlt_Qlt. apply Qle_lt_trans with (to_double x); [apply Qfloor_le | exact Hup]. }
  symmetry. apply (Z.div_unique _ _ _ (Qfloor (to_double x) - 1000 * n)); lia.
Qed.

(** The spacing at a positive [x] is at most [x * 2^-52], or the
    subnormal spacing. *)
Lemma ulp_small (x : Q) :
  (0 < x)%Q -> (ulp x <= x * pow2 (-52))%Q \/ ulp x = pow2 (-1074).
Proof.
  intros Hx. unfold ulp.
  destruct (Z_le_gt_dec (-1022) (binade x)) as [H | H].
  - left. rewrite Z.max_l by exact H.
    replace (binade x - 52) with (binade x + -52) by lia. rewrite pow2_add.
    apply Qmult_le_compat_r; [apply binade_le; exact Hx | apply Qlt_le_weak, pow2_pos].
  - right. rewrite Z.max_r by lia. reflexivity.
Qed.

(** A quotient of two integers below [2^53] lies more than half a
    spacing away from every integer it is not equal to. *)
Lemma quotient_off_integers (y : Q) (a b : Z) :
  0 < a < 2 ^ 53 -> 0 < b < 2 ^ 53 -> (y == inject_Z a / inject_Z b)%Q ->
  ((1 # 2) * ulp y < 1 / inject_Z b)%Q.
Proof.
  intros Ha Hb Hyab.
  assert (Hbq : (0 < inject_Z b)%Q)
    by (change 0%Q with (inject_Z 0); rewrite <- Zlt_Qlt; lia).
  assert (Haq : (0 < inject_Z a)%Q)
    by (change 0%Q with (inject_Z 0); rewrite <- Zlt_Qlt; lia).
  assert (Hib : (0 < / inject_Z b)%Q) by (apply Qinv_lt_0_compat; exact Hbq).
  assert (Hy : (0 < y)%Q) by (rewrite Hyab; unfold Qdiv; nra).
  assert (Ha53 : (inject_Z a < pow2 53)%Q) by (apply pow2_lt_Z; lia).
  assert (Hb53 : (inject_Z b < pow2 53)%Q) by (apply pow2_lt_Z; lia).
  assert (Hone : (inject_Z b * / inject_Z b == 1)%Q).
  { apply Qmult_inv_r. intros E. rewrite E in Hbq. exact (Qlt_irrefl _ Hbq). }
  unfold Qdiv. rewrite Qmult_1_l.
  destruct (ulp_small y Hy) as [Hs | Hs].
  - assert (E : (pow2 53 * pow2 (-52) == 2)%Q) by reflexivity.
    pose proof (pow2_pos (-52)) as H52.
    assert (Hy' : (y * pow2 (-52) < 2 * / inject_Z b)%Q).
    { rewrite Hyab. unfold Qdiv.
      assert ((inject_Z a * pow2 (-52) < pow2 53 * pow2 (-52))%Q)
        by (apply Qmult_lt_compat_r; assumption).
      rewrite E in H.
      setoid_replace (inject_Z a * / inject_Z b * pow2 (-52))%Q
        with ((inject_Z a * pow2 (-52)) * / inject_Z b)%Q using relation Qeq by ring.
      apply Qmult_lt_compat_r; assumption. }
    lra.
  - rewrite Hs.
    assert (Hinv : (pow2 (-53) < / inject_Z b)%Q).
    { assert (E : (pow2 (-53) * pow2 53 == 1)%Q) by reflexivity.
      pose proof (pow2_pos (-53)) as H53.
      (* 2^-53 * b < 1 *)
      assert (H1 : (pow2 (-53) * inject_Z b < 1)%Q).
      { rewrite <- E. apply Qmult_lt_l; assumption. }
      assert (H2 : (pow2 (-53) * inject_Z b * / inject_Z b < 1 * / inject_Z b)%Q)
        by (apply Qmult_lt_compat_r; assumption).
      rewrite <- Qmult_assoc, Hone in H2. lra. }
    assert (Hle : (pow2 (-1074) <= pow2 (-53))%Q) by (apply pow2_le; lia).
    pose proof (pow2_pos (-1074)). lra.
Qed.

(** A rational with denominator [b] that lies above an integer lies at
    least [1/b] above it. *)
Lemma quotient_step (a b k : Z) :
  0 < b -> (inject_Z k < inject_Z a / inject_Z b)%Q ->
  (inject_Z k + 1 / inject_Z b <= inject_Z a / inject_Z b)%Q.
Proof.
  intros Hb H.
  assert (Hbq : (0 < inject_Z b)%Q)
    by (change 0%Q with (inject_Z 0); rewrite <- Zlt_Qlt; lia).
  assert (Hne : ~ (inject_Z b == 0)%Q)
    by (intros E; rewrite E in Hbq; exact (Qlt_irrefl _ Hbq)).
  assert (Hk : k * b < a).
  { rewrite Zlt_Qlt, inject_Z_mult.
    apply (Qmult_lt_r _ _ (inject_Z b) Hbq) in H.
    unfold Qdiv in H. rewrite <- Qmult_assoc, (Qmult_comm (/ _)), Qmult_inv_r, Qmult_1_r in H
      by exact Hne. exact H. }
  apply (Qmult_le_r _ _ (inject_Z b) Hbq).
  setoid_replace ((inject_Z k + 1 / inject_Z b) * inject_Z b)%Q
    with (inject_Z k * inject_Z b + inject_Z 1)%Q using relation Qeq by (field; exact Hne).
  setoid_replace (inject_Z a / inject_Z b * inject_Z b)%Q
    with (inject_Z a) using relation Qeq by (field; exact Hne).
  rewrite <- inject_Z_mult, <- inject_Z_plus, <- Zle_Qle. lia.
Qed.

Lemma quotient_step_below (a b k : Z) :
  0 < b -> (inject_Z a / inject_Z b < inject_Z k)%Q ->
  (inject_Z a / inject_Z b <= inject_Z k - 1 / inject_Z b)%Q.
Proof.
  intros Hb H.
  assert (Hbq : (0 < inject_Z b)%Q)
    by (change 0%Q with (inject_Z 0); rewrite <- Zlt_Qlt; lia).
  assert (Hne : ~ (inject_Z b == 0)%Q)
    by (intros E; rewrite E in Hbq; exact (Qlt_irrefl _ Hbq)).
  assert (Hk : a < k * b).
  { rewrite Zlt_Qlt, inject_Z_mult.
    apply (Qmult_lt_r _ _ (inject_Z b) Hbq) in H.
    unfold Qdiv in H. rewrite <- Qmult_assoc, (Qmult_comm (/ _)), Qmult_inv_r, Qmult_1_r in H
      by exact Hne. exact H. }
  apply (Qmult_le_r _ _ (inject_Z b) Hbq).
  setoid_replace ((inject_Z k - 1 / inject_Z b) * inject_Z b)%Q
    with (inject_Z k * inject_Z b + inject_Z (-1))%Q using relation Qeq by (field; exact Hne).
  setoid_replace (inject_Z a / inject_Z b * inject_Z b)%Q
    with (inject_Z a) using relation Qeq by (field; exact Hne).
  rewrite <- inject_Z_mult, <- inject_Z_plus, <- Zle_Qle. lia.
Qed.

Lemma Qceiling_unique (z : Q) (c : Z) :
  (inject_Z c - 1 < z)%Q -> (z <= inject_Z c)%Q -> Qceiling z = c.
Proof.
  intros H1 H2.
  assert (Hle : Qceiling z <= c).
  { apply Qceiling_resp_le in H2. rewrite Qceiling_Z in H2. exact H2. }
  assert (Hgt : c - 1 < Qceiling z).
  { rewrite Zlt_Qlt. unfold Z.sub. rewrite inject_Z_plus.
    change (inject_Z (- (1))) with (- (1))%Q.
    apply Qlt_le_trans with z; [exact H1 | apply Qle_ceiling]. }
  lia.
Qed.

Lemma Qfloor_unique (z : Q) (f : Z) :
  (inject_Z f <= z)%Q -> (z < inject_Z f + 1)%Q -> Qfloor z = f.
Proof.
  intros H1 H2.
  assert (Hge : f <= Qfloor z).
  { apply Qfloor_resp_le in H1. rewrite Qfloor_Z in H1. exact H1. }
  assert (Hlt : Qfloor z < f + 1).
  { rewrite Zlt_Qlt, inject_Z_plus. change (inject_Z 1) with 1%Q.
    apply Qle_lt_trans with z; [apply Qfloor_le | exact H2]. }
  lia.
Qed.

Lemma quotient_below_pow2_53 (y : Q) (a b : Z) :
  0 < a < 2 ^ 53 -> 0 < b -> (y == inject_Z a / inject_Z b)%Q ->
  (0 < y)%Q /\ (y < pow2 53)%Q.
Proof.
  intros Ha Hb Hy.
  assert (Hbq : (1 <= inject_Z b)%Q)
    by (change 1%Q with (inject_Z 1); rewrite <- Zle_Qle; lia).
  assert (Haq : (0 < inject_Z a)%Q)
    by (change 0%Q with (inject_Z 0); rewrite <- Zlt_Qlt; lia).
  assert (Ha53 : (inject_Z a < pow2 53)%Q) by (apply pow2_lt_Z; lia).
  assert (Hne : ~ (inject_Z b == 0)%Q) by (intros E; rewrite E in Hbq; lra).
  assert (Hib : (0 < / inject_Z b)%Q) by (apply Qinv_lt_0_compat; lra).
  assert (Hib1 : (/ inject_Z b <= 1)%Q).
  { apply (Qmult_le_r _ _ (inject_Z b)); [lra |].
    rewrite (Qmult_comm (/ _)), Qmult_inv_r by exact Hne. lra. }
  rewrite Hy. unfold Qdiv. split; nra.
Qed.

(** [math.ceil(a / b)] on two ints below [2^53]: rounding the quotient
    to a double does not change its ceiling. *)
Lemma ceil_of_double_quotient (a b : Z) :
  Z.abs a < 2 ^ 53 -> 0 < b < 2 ^ 53 ->
  Qceiling (to_double (inject_Z a / inject_Z b)) = Qceiling (inject_Z a / inject_Z b).
Proof.
  intros Ha Hb. set (y := (inject_Z a / inject_Z b)%Q).
  assert (Hbq : (0 < inject_Z b)%Q)
    by (change 0%Q with (inject_Z 0); rewrite <- Zlt_Qlt; lia).
  assert (Hib : (0 < / inject_Z b)%Q) by (apply Qinv_lt_0_compat; exact Hbq).
  destruct (Z.lt_trichotomy a 0) as [Hneg | [Hzero | Hpos]].
  - (* a < 0 *)
    assert (Hy' : (- y == inject_Z (- a) / inject_Z b)%Q).
    { unfold y. rewrite inject_Z_opp. unfold Qdiv. ring. }
    destruct (quotient_below_pow2_53 (- y) (- a) b ltac:(lia) ltac:(lia) Hy') as [Hp H53].
    assert (Hlt : (y < 0)%Q) by lra.
    assert (Hc : (y ?= 0)%Q = Lt) by (rewrite <- Qlt_alt; exact Hlt).
    unfold to_double. rewrite Hc.
    rewrite <- (to_double_pos (- y) Hp).
    unfold Qceiling. f_equal. 
    rewrite (Qopp_involutive (to_double (- y))).
    set (f := Qfloor (- y)).
    assert (Hf1 : (inject_Z f <= - y)%Q) by apply Qfloor_le.
    assert (Hf2 : (- y < inject_Z (f + 1))%Q) by apply Qlt_floor.
    set (j := Z.max (binade (- y)) (-1022) - 52).
    assert (Hu : ulp (- y) = pow2 j) by reflexivity.
    assert (Hj : j <= 0) by (pose proof (binade_lt (- y) 53 Hp H53); lia).
    pose proof (pow2_pos j) as Hupos.
    pose proof (quotient_off_integers (- y) (- a) b ltac:(lia) ltac:(lia) Hy') as Hoff.
    rewrite Hu in Hoff.
    apply Qfloor_unique.
    + rewrite (integer_on_grid j f Hj), <- Hu.
      apply (to_double_ge (- y) _ Hp). rewrite Hu, <- integer_on_grid by exact Hj. exact Hf1.
    + apply Qle_lt_trans with (inject_Z ((f + 1) * 2 ^ (- j) - 1) * ulp (- y))%Q.
      * apply (to_double_lt (- y) _ Hp). rewrite Hu.
        assert (E : ((inject_Z ((f + 1) * 2 ^ (- j)) - (1 # 2)) * pow2 j ==
                     inject_Z ((f + 1) * 2 ^ (- j)) * pow2 j - (1 # 2) * pow2 j)%Q) by ring.
        rewrite E, <- integer_on_grid by exact Hj.
        rewrite Hy' in Hf2.
        pose proof (quotient_step_below (- a) b (f + 1) ltac:(lia) Hf2) as Hstep.
        rewrite <- Hy' in Hstep. lra.
      * rewrite Hu. unfold Z.sub. rewrite inject_Z_plus, Qmult_plus_distr_l.
        rewrite <- integer_on_grid by exact Hj.
        change (inject_Z (- (1))) with (- (1))%Q.
        rewrite inject_Z_plus. change (inject_Z 1) with 1%Q. lra.
  - (* a = 0 *)
    assert (Hy0 : (y == 0)%Q) by (unfold y; rewrite Hzero; unfold Qdiv; ring).
    assert (Hc : (y ?= 0)%Q = Eq) by (rewrite <- Qeq_alt; exact Hy0).
    unfold to_double. rewrite Hc, Hy0. reflexivity.
  - (* 0 < a *)
    assert (Hy' : (y == inject_Z a / inject_Z b)%Q) by reflexivity.
    destruct (quotient_below_pow2_53 y a b ltac:(lia) ltac:(lia) Hy') as [Hp H53].
    set (c := Qceiling y).
    assert (Hc1 : (y <= inject_Z c)%Q) by apply Qle_ceiling.
    assert (Hc2 : (inject_Z (c - 1) < y)%Q) by apply Qceiling_lt.
    set (j := Z.max (binade y) (-1022) - 52).
    assert (Hu : ulp y = pow2 j) by reflexivity.
    assert (Hj : j <= 0) by (pose proof (binade_lt y 53 Hp H53); lia).
    pose proof (pow2_pos j) as Hupos.
    pose proof (quotient_off_integers y a b ltac:(lia) ltac:(lia) Hy') as Hoff.
    rewrite Hu in Hoff.
    apply Qceiling_unique.
    + apply Qlt_le_trans with (inject_Z ((c - 1) * 2 ^ (- j) + 1) * ulp y)%Q.
      * rewrite Hu, inject_Z_plus, Qmult_plus_distr_l.
        rewrite <- integer_on_grid by exact Hj.
        unfold Z.sub. rewrite inject_Z_plus.
        change (inject_Z (- (1))) with (- (1))%Q. change (inject_Z 1) with 1%Q. lra.
      * apply (to_double_gt y _ Hp). rewrite Hu.
        assert (E : ((inject_Z ((c - 1) * 2 ^ (- j)) + (1 # 2)) * pow2 j ==
                     inject_Z ((c - 1) * 2 ^ (- j)) * pow2 j + (1 # 2) * pow2 j)%Q) by ring.
        rewrite E, <- integer_on_grid by exact Hj.
        pose proof (quotient_step a b (c - 1) ltac:(lia) Hc2) as Hstep.
        fold y in Hstep. lra.
    + rewrite (integer_on_grid j c Hj), <- Hu.
      apply (to_double_le y _ Hp). rewrite Hu, <- integer_on_grid by exact Hj. exact Hc1.
Qed.

(** [binade] is the binade. *)
Lemma binade_spec (x : Q) :
  (0 < x)%Q -> (pow2 (binade x) <= x)%Q /\ (x < pow2 (binade x + 1))%Q.
Proof.
  intros Hx. split; [apply binade_le; exact Hx |].
  unfold binade.
  set (e0 := Z.log2 (Qnum x) - Z.log2 (Z.pos (Qden x))).
  destruct (Qle_bool (pow2 e0) x) eqn:E.
  2:{ replace (e0 - 1 + 1) with e0 by lia.
      destruct (Qlt_le_dec x (pow2 e0)) as [H | H]; [exact H |].
      apply Qle_bool_iff in H. congruence. }
  destruct x as [n d]. unfold Qlt in Hx. cbn [Qnum Qden] in Hx, e0.
  change (Qnum 0) with 0 in Hx. rewrite Z.mul_0_l, Z.mul_1_r in Hx.
  assert (Hn : n < 2 ^ (Z.log2 n + 1)).
  { pose proof (Z.log2_spec n ltac:(lia)) as H.
    replace (Z.log2 n + 1) with (Z.succ (Z.log2 n)) by lia. lia. }
  assert (Hd : 2 ^ Z.log2 (Z.pos d) <= Z.pos d) by (apply Z.log2_spec; lia).
  pose proof (Z.log2_nonneg n) as Hn0. pose proof (Z.log2_nonneg (Z.pos d)) as Hd0.
  set (a := Z.log2 n) in *. set (b := Z.log2 (Z.pos d)) in *.
  assert (Heq : (pow2 (e0 + 1) * inject_Z (2 ^ b) == inject_Z (2 ^ (a + 1)))%Q).
  { rewrite <- !pow2_Z by lia. rewrite <- pow2_add.
    replace (e0 + 1 + b) with (a + 1) by (unfold e0; lia). reflexivity. }
  assert (Hb1 : (0 < inject_Z (2 ^ b))%Q).
  { change 0%Q with (inject_Z 0). rewrite <- Zlt_Qlt. apply Z.pow_pos_nonneg; lia. }
  apply (Qmult_lt_r _ _ (inject_Z (2 ^ b))); [exact Hb1 |].
  rewrite Heq.
  apply Qle_lt_trans with (inject_Z n); [| rewrite <- Zlt_Qlt; exact Hn].
  unfold Qle, Qmult, inject_Z. simpl. rewrite !Z.mul_1_r.
  rewrite Pos.mul_1_r.
  assert (0 < 2 ^ b) by (apply Z.pow_pos_nonneg; lia).
  nia.
Qed.

(** [round_half_even] is within one half of its argument, and even on
    a tie. *)
Lemma round_half_even_nearest (y : Q) :
  (inject_Z (round_half_even y) - (1 # 2) <= y)%Q /\
  (y <= inject_Z (round_half_even y) + (1 # 2))%Q /\
  ((y - inject_Z (Qfloor y) == 1 # 2)%Q -> Z.even (round_half_even y) = true).
Proof.
  pose proof (Qfloor_le y) as Hf1. pose proof (Qlt_floor y) as Hf2.
  rewrite inject_Z_plus in Hf2. change (inject_Z 1) with 1%Q in Hf2.
  unfold round_half_even.
  destruct (y - inject_Z (Qfloor y) ?= 1 # 2)%Q eqn:E.
  - apply Qeq_alt in E.
    destruct (Z.even (Qfloor y)) eqn:Hev.
    + split; [lra |]. split; [lra |]. intros _. exact Hev.
    + rewrite inject_Z_plus. change (inject_Z 1) with 1%Q.
      split; [lra |]. split; [lra |]. intros _.
      rewrite Z.even_add, Hev. reflexivity.
  - apply Qlt_alt in E. split; [lra |]. split; [lra |]. intros H. lra.
  - apply Qgt_alt in E. rewrite inject_Z_plus. change (inject_Z 1) with 1%Q.
    split; [lra |]. split; [lra |]. intros H. lra.
Qed.

(** For a positive [x], [to_double x] is a multiple of the spacing at
    [x] within half a spacing of [x], with a mantissa of at most
    [2^53] in the normal range. *)
Lemma to_double_nearest (x : Q) :
  (0 < x)%Q ->
  exists k : Z,
    to_double x = (inject_Z k * ulp x)%Q /\
    (inject_Z k * ulp x - (1 # 2) * ulp x <= x)%Q /\
    (x <= inject_Z k * ulp x + (1 # 2) * ulp x)%Q /\
    0 <= k /\ (-1022 <= binade x -> 2 ^ 52 <= k <= 2 ^ 53).
Proof.
  intros Hx. exists (round_half_even (x / ulp x)).
  pose proof (ulp_pos x) as Hu.
  assert (Hne : ~ (ulp x == 0)%Q) by (intros E; rewrite E in Hu; exact (Qlt_irrefl _ Hu)).
  assert (Hxu : (x / ulp x * ulp x == x)%Q) by (field; exact Hne).
  destruct (round_half_even_nearest (x / ulp x)) as (H1 & H2 & _).
  split; [apply to_double_pos; exact Hx |].
  split; [nra |]. split; [nra |].
  split.
  - apply round_half_even_ge. change (inject_Z 0) with 0%Q.
    apply div_ulp_le. lra.
  - intros Hnorm. destruct (binade_spec x Hx) as [Hlo Hhi].
    assert (Hulp : ulp x = pow2 (binade x - 52))
      by (unfold ulp; rewrite Z.max_l by exact Hnorm; reflexivity).
    split.
    + apply round_half_even_ge. apply div_ulp_le. rewrite Hulp.
      rewrite <- pow2_Z, <- pow2_add by lia.
      replace (52 + (binade x - 52)) with (binade x) by lia. exact Hlo.
    + apply round_half_even_le. apply div_ulp_ge. rewrite Hulp.
      rewrite <- pow2_Z, <- pow2_add by lia.
      replace (53 + (binade x - 52)) with (binade x + 1) by lia.
      apply Qlt_le_weak. exact Hhi.
Qed.

(** Rounding leaves a double as it is. *)
Lemma to_double_of_double (x : Q) : is_double x -> (to_double x == x)%Q.
Proof.
  assert (Hpos : forall y m e, (0 < y)%Q -> 0 < m < 2 ^ 53 -> -1074 <= e ->
                   (y == inject_Z m * pow2 e)%Q -> (to_double y == y)%Q).
  { intros y m e Hy Hm He Hye.
    set (j := Z.max (binade y) (-1022) - 52).
    assert (Hu : ulp y = pow2 j) by reflexivity.
    assert (Hje : j <= e).
    { assert (Hlt : (y < pow2 (53 + e))%Q).
      { rewrite Hye, pow2_add. apply Qmult_lt_compat_r; [apply pow2_pos |].
        apply pow2_lt_Z; lia. }
      pose proof (binade_lt y (53 + e) Hy Hlt). lia. }
    assert (Hgrid : (y == inject_Z (m * 2 ^ (e - j)) * pow2 j)%Q).
    { rewrite Hye, inject_Z_mult, <- pow2_Z, <- Qmult_assoc, <- pow2_add by lia.
      replace (e - j + j) with e by lia. reflexivity. }
    apply Qle_antisym.
    - rewrite Hgrid at 2. rewrite <- Hu.
      apply (to_double_le y _ Hy). rewrite Hu, <- Hgrid. apply Qle_refl.
    - rewrite Hgrid at 1. rewrite <- Hu.
      apply (to_double_ge y _ Hy). rewrite Hu, <- Hgrid. apply Qle_refl. }
  intros (m & e & Hm & He & Hx).
  pose proof (pow2_pos e) as Hpe.
  destruct (Z.lt_trichotomy m 0) as [Hneg | [Hzero | Hgt]].
  - assert (Hmq : (inject_Z m < 0)%Q)
      by (change 0%Q with (inject_Z 0); rewrite <- Zlt_Qlt; exact Hneg).
    assert (Hlt : (x < 0)%Q) by (rewrite Hx; nra).
    assert (Hc : (x ?= 0)%Q = Lt) by (rewrite <- Qlt_alt; exact Hlt).
    assert (Hy : (0 < - x)%Q) by lra.
    assert (Hye : (- x == inject_Z (- m) * pow2 e)%Q)
      by (rewrite Hx, inject_Z_opp; ring).
    pose proof (Hpos (- x)%Q (- m) e Hy ltac:(lia) ltac:(lia) Hye) as H.
    rewrite (to_double_pos (- x)%Q Hy) in H.
    unfold to_double. rewrite Hc. lra.
  - assert (Hx0 : (x == 0)%Q) by (rewrite Hx, Hzero; ring).
    assert (Hc : (x ?= 0)%Q = Eq) by (rewrite <- Qeq_alt; exact Hx0).
    unfold to_double. rewrite Hc. symmetry. exact Hx0.
  - assert (Hmq : (0 < inject_Z m)%Q)
      by (change 0%Q with (inject_Z 0); rewrite <- Zlt_Qlt; exact Hgt).
    assert (Hy : (0 < x)%Q) by (rewrite Hx; nra).
    apply (Hpos x m e Hy ltac:(lia) ltac:(lia) Hx).
Qed.

End Binary64.

(** ** Subtitle writer *)

Section Timestamp.

Import TimestampSpec.

Lemma int_of_float_nonneg (x : Q) : (0 <= x)%Q -> int_of_float x = Qfloor x.
Proof.
  destruct x as [n d]. unfold Qle, int_of_float, Qfloor. simpl.
  intros H. apply Z.quot_div_nonneg; lia.
Qed.

Lemma floor_over (ts : Q) (k : positive) :
  Qfloor ts / Z.pos k = Qfloor (ts / inject_Z (Z.pos k)).
Proof.
  destruct ts as [n d]. unfold Qfloor, Qdiv, Qmult, Qinv, inject_Z. simpl.
  rewrite Z.div_div by lia.
  rewrite Z.mul_1_r, Pos2Z.inj_mul. reflexivity.
Qed.

Lemma pad2_fixed (n : Z) : 0 <= n < 100 -> format_zero_pad 2 n = fixed_width 2 n.
Proof.
  intros Hn.
  assert (Hall : forallb (fun k => String.eqb (format_zero_pad 2 (Z.of_nat k))
                                    (fixed_width 2 (Z.of_nat k))) (seq 0 100) = true)
    by (vm_compute; reflexivity).
  rewrite forallb_forall in Hall.
  specialize (Hall (Z.to_nat n)).
  rewrite Z2Nat.id in Hall by lia.
  apply String.eqb_eq, Hall, in_seq. lia.
Qed.

Lemma pad3_fixed (n : Z) : 0 <= n < 1000 -> format_zero_pad 3 n = fixed_width 3 n.
Proof.
  intros Hn.
  assert (Hall : forallb (fun k => String.eqb (format_zero_pad 3 (Z.of_nat k))
                                    (fixed_width 3 (Z.of_nat k))) (seq 0 1000) = true)
    by (vm_compute; reflexivity).
  rewrite forallb_forall in Hall.
  specialize (Hall (Z.to_nat n)).
  rewrite Z2Nat.id in Hall by lia.
  apply String.eqb_eq, Hall, in_seq. lia.
Qed.

(** C9, counterexample. The double nearest to 0.29 is
    5224175567749775 / 2^54, just below 0.29, so floor(ts*1000) is 289;
    the double product [ts * 1000] rounds to 290.0 and the formatter
    prints 290 milliseconds. *)
Lemma double_0_29_is_stamped_290ms :
  let ts := (5224175567749775 # 18014398509481984)%Q in
  is_double ts /\ (0 <= ts)%Q /\
  Qfloor (ts * 1000) = 289 /\
  layout ts = "00:00:00,289"%string /\
  SRTWriter._format_timestamp ts = "00:00:00,290"%string.
Proof.
  cbv zeta. split.
  { exists 5224175567749775, (-54). split; [reflexivity |].
    split; [lia | reflexivity]. }
  split; [discriminate |]. split; [reflexivity |].
  split; vm_compute; reflexivity.
Qed.

(** The same at a time of day: the double nearest to 1700000001.231
    lies below it, and its stamp shows 231 milliseconds. *)
Example epoch_stamp_shows_the_rounded_product :
  let ts := (1782579201290797 # 1048576)%Q in
  Qfloor (ts * 1000) mod 1000 = 230 /\
  int_of_float (float_mul ts 1000) mod 1000 = 231.
Proof. split; vm_compute; reflexivity. Qed.

(** C9 (amended). For a nonnegative double time stamp below 2^53
    milliseconds the formatter yields HH:MM:SS,mmm with
    SS = floor(ts) mod 60, MM = floor(ts/60) mod 60 and
    HH = floor(ts/3600) mod 100 on two digits each (the hours wrap
    modulo 100), and mmm = floor(p) mod 1000 on three digits, where p is
    the product ts*1000 as a double holds it: the exact product rounded
    to the nearest double. *)
Theorem format_timestamp_layout (ts : Q) :
  is_double ts -> (0 <= ts)%Q -> (ts * 1000 < pow2 53)%Q ->
  SRTWriter._format_timestamp ts = layout_of_double_product ts.
Proof.
  intros Hd Hts Hb.
  destruct (float_mul_1000_whole_seconds ts Hd Hts Hb) as [Hms Hsec].
  unfold SRTWriter._format_timestamp, layout_of_double_product,
    HH, MM, SS, mmm_of_double_product.
  rewrite (int_of_float_nonneg _ Hms).
  set (T := Qfloor (float_mul ts 1000)) in *.
  replace (T / (1000 * 60 * 60)) with (Qfloor (ts / 3600)).
  2:{ change (1000 * 60 * 60) with (1000 * 3600). rewrite <- Z.div_div by lia.
      rewrite Hsec. symmetry. apply (floor_over ts 3600). }
  replace (T / (1000 * 60)) with (Qfloor (ts / 60)).
  2:{ rewrite <- Z.div_div by lia. rewrite Hsec. symmetry. apply (floor_over ts 60). }
  rewrite Hsec.
  pose proof (Z.mod_pos_bound (Qfloor (ts / 3600)) 100).
  pose proof (Z.mod_pos_bound (Qfloor (ts / 60)) 60).
  pose proof (Z.mod_pos_bound (Qfloor ts) 60).
  pose proof (Z.mod_pos_bound T 1000).
  do 3 (rewrite pad2_fixed by lia).
  rewrite pad3_fixed by lia.
  reflexivity.
Qed.

Lemma format_timestamp_layout_witness :
  let ts := (2046991583756157 # 549755813888)%Q in
  is_double ts /\ (0 <= ts)%Q /\ (ts * 1000 < pow2 53)%Q /\
  SRTWriter._format_timestamp ts = "01:02:03,456"%string.
Proof.
  cbv zeta.
  assert (Hd : is_double (2046991583756157 # 549755813888)).
  { exists 2046991583756157, (-39). split; [reflexivity |].
    split; [lia | reflexivity]. }
  assert (H0 : (0 <= 2046991583756157 # 549755813888)%Q) by discriminate.
  assert (Hb : ((2046991583756157 # 549755813888) * 1000 < pow2 53)%Q) by reflexivity.
  split; [exact Hd |]. split; [exact H0 |]. split; [exact Hb |].
  rewrite (format_timestamp_layout _ Hd H0 Hb). vm_compute. reflexivity.
Defined.

End Timestamp.

(** ** Segmenter: one frame *)

Section SegmenterStep.

Import RealTimeCapturer Segmenter.

Variable self : Segmenter.t.
Variable capturer : RealTimeCapturer.t.




(** The five ways through the loop body. *)

Lemma body_idle_silence st ts pcm :
  cur_segment st = None -> classify capturer pcm = false ->
  body self capturer st (ts, pcm) = (st, None).
Proof. intros Hc Hs. unfold body. rewrite Hc, Hs. reflexivity. Qed.

Lemma body_idle_speech st ts pcm :
  cur_segment st = None -> classify capturer pcm = true ->
  body self capturer st (ts, pcm) =
    (mkL (Some (AudioSegment.mk ts None [pcm])) 1 0 (Some ts), None).
Proof. intros Hc Hs. unfold body. rewrite Hc, Hs. reflexivity. Qed.

Lemma body_silence_end st seg ts pcm :
  cur_segment st = Some seg ->
  let seg' := AudioSegment.append seg pcm in
  let st' := extend st seg' (classify capturer pcm) ts in
  silence_end self st' = true ->
  let e := or_float (last_activity st') ts in
  body self capturer st (ts, pcm) =
    (initial,
     if float_ge ((e - AudioSegment.start_time seg) * 1000)%Q
          (inject_Z (min_frames self * block_duration_ms capturer))
     then Some (AudioSegment.set_end_time seg' e,
                "Out queue full; dropping segment."%string)
     else None).
Proof. intros Hc seg' st' Hs e. unfold body. rewrite Hc. fold seg' st'. rewrite Hs. reflexivity. Qed.


Lemma body_continue st seg ts pcm :
  cur_segment st = Some seg ->
  let seg' := AudioSegment.append seg pcm in
  let st' := extend st seg' (classify capturer pcm) ts in
  silence_end self st' = false ->
  timed_out self ts seg' = false ->
  body self capturer st (ts, pcm) = (st', None).
Proof. intros Hc seg' st' Hs Ht. unfold body. rewrite Hc. fold seg' st'. rewrite Hs, Ht. reflexivity. Qed.


Lemma emit_full seg warning (out_queue : Queue.t AudioSegment.t) (log : Log) :
  Queue.full out_queue = true ->
  emit (Some (seg, warning)) (out_queue, log) =
    Returned (out_queue, log ++ [(WARNING, warning)]).
Proof. intros Hf. unfold emit, Queue.put_nowait, Queue.put. simpl. rewrite Hf. reflexivity. Qed.


(** A segment-length threshold built by [__init__] is never below
    [min_speech_ms] when the frame length is positive. *)
Lemma frames_cover_min_speech (min_speech_ms frame_ms : Z) :
  0 < frame_ms ->
  min_speech_ms <=
    Z.max 1 (ceil (inject_Z min_speech_ms / inject_Z frame_ms)) * frame_ms.
Proof.
  intros Hpos. unfold ceil.
  set (c := Qceiling (inject_Z min_speech_ms / inject_Z frame_ms)).
  assert (Hc : min_speech_ms <= c * frame_ms).
  { rewrite Zle_Qle, inject_Z_mult.
    assert (Hq : (inject_Z min_speech_ms / inject_Z frame_ms <= inject_Z c)%Q)
      by apply Qle_ceiling.
    assert (Hf : (0 < inject_Z frame_ms)%Q)
      by (change 0%Q with (inject_Z 0); rewrite <- Zlt_Qlt; exact Hpos).
    apply (Qmult_le_compat_r _ _ (inject_Z frame_ms)) in Hq;
      [| apply Qlt_le_weak; exact Hf].
    rewrite Qmult_comm, Qmult_div_r in Hq; [exact Hq |].
    intros Hz. rewrite Hz in Hf. exact (Qlt_irrefl _ Hf). }
  nia.
Qed.

Lemma init_fields (min_speech_ms max_silence_ms timeout : Z) (s : Segmenter.t) :
  Segmenter.__init__ capturer min_speech_ms max_silence_ms timeout = Returned s ->
  block_duration_ms capturer <> 0 /\
  min_frames s =
    Z.max 1 (ceil (inject_Z min_speech_ms / inject_Z (block_duration_ms capturer))) /\
  max_silence_frames s =
    Z.max 1 (ceil (inject_Z max_silence_ms / inject_Z (block_duration_ms capturer))) /\
  segment_timeout_s s = timeout.
Proof.
  unfold Segmenter.__init__, truediv.
  destruct (block_duration_ms capturer =? 0) eqn:E; simpl; [discriminate |].
  intros H. injection H as <-. simpl.
  apply Z.eqb_neq in E. repeat split; assumption.
Qed.



(** A run of silent frames that neither fills the silence budget nor
    passes the timeout only grows the open segment. *)
Lemma feed_silence_run (frames : list Frame) :
  forall seg sc c la,
    Forall (fun f => classify capturer (snd f) = false) frames ->
    Forall (fun f => timed_out self (fst f) seg = false) frames ->
    c + Z.of_nat (length frames) < max_silence_frames self ->
    feed self capturer (mkL (Some seg) sc c la) frames =
      (mkL (Some (AudioSegment.mk (AudioSegment.start_time seg)
                                  (AudioSegment.end_time seg)
                                  (AudioSegment.samples seg ++ map snd frames)))
           sc (c + Z.of_nat (length frames)) la, []).
Proof.
  induction frames as [| [ts pcm] rest IH]; intros seg sc c la Hsil Hto Hlen.
  - simpl. rewrite app_nil_r, Z.add_0_r. destruct seg; reflexivity.
  - inversion Hsil as [| ? ? Hs1 Hs2]; subst. inversion Hto as [| ? ? Ht1 Ht2]; subst.
    simpl in Hs1, Ht1. rewrite length_cons, Nat2Z.inj_succ in Hlen.
    cbn [feed].
    rewrite (body_continue (mkL (Some seg) sc c la) seg ts pcm eq_refl).
    + rewrite Hs1. cbn [extend speech_frame_count silence_frame_count last_activity].
      rewrite (IH (AudioSegment.append seg pcm) sc (c + 1) la Hs2 Ht2) by lia.
      cbn [AudioSegment.append AudioSegment.start_time AudioSegment.end_time
           AudioSegment.samples map snd option_list app].
      rewrite <- app_assoc, length_cons, Nat2Z.inj_succ.
      replace (c + 1 + Z.of_nat (length rest))
        with (c + Z.succ (Z.of_nat (length rest))) by lia.
      reflexivity.
    + rewrite Hs1. unfold silence_end, extend. simpl. apply Z.leb_gt. lia.
    + exact Ht1.
Qed.

Lemma feed_app (xs ys : list Frame) :
  forall st,
    feed self capturer st (xs ++ ys) =
      (fst (feed self capturer (fst (feed self capturer st xs)) ys),
       snd (feed self capturer st xs) ++
       snd (feed self capturer (fst (feed self capturer st xs)) ys)).
Proof.
  induction xs as [| x xs IH]; intros st.
  - simpl. destruct (feed self capturer st ys); reflexivity.
  - simpl. destruct (body self capturer st x) as [st1 out].
    rewrite IH.
    destruct (feed self capturer st1 xs) as [st2 outs]. simpl.
    destruct (feed self capturer st2 ys) as [st3 outs']. simpl.
    rewrite app_assoc. reflexivity.
Qed.

Lemma feed_one st f :
  feed self capturer st [f] =
    (fst (body self capturer st f), option_list (snd (body self capturer st f))).
Proof.
  simpl. destruct (body self capturer st f) as [st' out].
  simpl. rewrite app_nil_r. reflexivity.
Qed.

Lemma body_keeps_run_below_budget st f :
  1 <= max_silence_frames self ->
  Trace.run_below_budget self st -> Trace.run_below_budget self (fst (body self capturer st f)).
Proof.
  intros Hmax Hinv. destruct f as [ts pcm]. unfold body, Trace.run_below_budget in *.
  destruct (cur_segment st) as [seg |] eqn:Hc.
  - destruct (silence_end self _) eqn:Hs; [exact I |].
    destruct (timed_out self ts _); [exact I |].
    simpl. unfold silence_end in Hs. apply Z.leb_gt in Hs.
    destruct (classify capturer pcm); simpl in *; lia.
  - destruct (classify capturer pcm); simpl; [lia |].
    rewrite Hc. exact I.
Qed.

Lemma feed_keeps_run_below_budget (frames : list Frame) :
  1 <= max_silence_frames self ->
  forall st, Trace.run_below_budget self st ->
             Trace.run_below_budget self (fst (feed self capturer st frames)).
Proof.
  intros Hmax. induction frames as [| f rest IH]; intros st Hinv; [exact Hinv |].
  simpl. pose proof (body_keeps_run_below_budget st f Hmax Hinv) as H1.
  destruct (body self capturer st f) as [st1 out]. simpl in H1.
  specialize (IH st1 H1).
  destruct (feed self capturer st1 rest) as [st2 outs]. exact IH.
Qed.

(** C4 (amended). With [max_silence_ms = 700] and 30 ms frames the
    silence budget is 24 frames, and in an open segment the silence
    test holds on a frame exactly when that frame is the 24th silent
    one in a row.  A run of fewer than 24 silent frames after a speech
    frame leaves the segment open as long as no frame of the run is
    past the timeout; the 24th silent frame closes it. *)
Theorem silence_end_on_24th_silent_frame (min_speech_ms timeout : Z) :
  block_duration_ms capturer = 30 ->
  Segmenter.__init__ capturer min_speech_ms 700 timeout = Returned self ->
  max_silence_frames self = 24 /\
  (forall st seg ts pcm,
      cur_segment st = Some seg ->
      0 <= silence_frame_count st < 24 ->
      (silence_end self
         (extend st (AudioSegment.append seg pcm) (classify capturer pcm) ts) = true
       <-> (classify capturer pcm = false /\ silence_frame_count st = 23))) /\
  (forall seg sc la (frames : list Frame),
      Forall (fun f => classify capturer (snd f) = false) frames ->
      Forall (fun f => timed_out self (fst f) seg = false) frames ->
      (length frames < 24)%nat ->
      feed self capturer (mkL (Some seg) sc 0 la) frames =
        (mkL (Some (AudioSegment.mk (AudioSegment.start_time seg)
                                    (AudioSegment.end_time seg)
                                    (AudioSegment.samples seg ++ map snd frames)))
             sc (Z.of_nat (length frames)) la, [])) /\
  (forall seg sc la (frames : list Frame) (last : Frame),
      Forall (fun f => classify capturer (snd f) = false) (frames ++ [last]) ->
      Forall (fun f => timed_out self (fst f) seg = false) frames ->
      length frames = 23%nat ->
      fst (feed self capturer (mkL (Some seg) sc 0 la) (frames ++ [last])) = initial).
Proof.
  intros Hblock Hinit.
  destruct (init_fields _ _ _ _ Hinit) as (_ & _ & Hmax & _).
  rewrite Hblock in Hmax. change (Z.max 1 (ceil (inject_Z 700 / inject_Z 30))) with 24 in Hmax.
  split; [exact Hmax |]. split; [| split].
  - intros st seg ts pcm Hc Hcount. unfold silence_end, extend. rewrite Hmax.
    destruct (classify capturer pcm); simpl; rewrite Z.leb_le; split.
    + lia.
    + intros [Hf _]. discriminate.
    + intros H. split; [reflexivity | lia].
    + intros [_ H]. lia.
  - intros seg sc la frames Hsil Hto Hlen.
    rewrite (feed_silence_run frames seg sc 0 la Hsil Hto) by (rewrite Hmax; lia).
    reflexivity.
  - intros seg sc la frames [ts pcm] Hsil Hto Hlen.
    apply Forall_app in Hsil. destruct Hsil as [Hsil Hlast].
    inversion Hlast as [| ? ? Hl _]; subst. simpl in Hl.
    rewrite feed_app.
    rewrite (feed_silence_run frames seg sc 0 la Hsil Hto) by (rewrite Hmax, Hlen; lia).
    cbn [fst]. rewrite feed_one. cbn [fst].
    erewrite body_silence_end; [reflexivity | reflexivity |].
    rewrite Hl. unfold silence_end, extend. simpl. rewrite Hmax, Hlen.
    reflexivity.
Qed.

End SegmenterStep.

(** ** Segmenter: whole frame sequences *)

Section SegmenterTrace.

Import RealTimeCapturer Segmenter.

Variable self : Segmenter.t.
Variable capturer : RealTimeCapturer.t.

Lemma opens_on_speech_more pre more seg :
  Trace.opens_on_speech capturer pre seg ->
  Trace.opens_on_speech capturer (pre ++ more) seg.
Proof.
  intros (pcm & rest & Hs & Hc & Hin).
  exists pcm, rest. repeat split; try assumption.
  apply in_or_app. left. exact Hin.
Qed.

Lemma opens_on_speech_grow frames seg seg' :
  AudioSegment.start_time seg' = AudioSegment.start_time seg ->
  (exists tail, AudioSegment.samples seg' = AudioSegment.samples seg ++ tail) ->
  Trace.opens_on_speech capturer frames seg ->
  Trace.opens_on_speech capturer frames seg'.
Proof.
  intros Hstart [tail Htail] (pcm & rest & Hs & Hc & Hin).
  exists pcm, (rest ++ tail). rewrite Htail, Hs, Hstart.
  repeat split; assumption.
Qed.

(** What a frame can leave in [cur_segment]: a segment just opened on
    this speech frame from idle, or the open one with the frame added. *)
Lemma body_cur_segment st ts pcm seg' :
  cur_segment (fst (body self capturer st (ts, pcm))) = Some seg' ->
  (cur_segment st = None /\ classify capturer pcm = true /\
   seg' = AudioSegment.mk ts None [pcm]) \/
  (exists seg, cur_segment st = Some seg /\ seg' = AudioSegment.append seg pcm).
Proof.
  unfold body. destruct (cur_segment st) as [seg |] eqn:Hc.
  - destruct (silence_end self _); [discriminate |].
    destruct (timed_out self ts _); [discriminate |].
    intros H. right. exists seg. split; [reflexivity |].
    unfold extend in H. destruct (classify capturer pcm); simpl in H; congruence.
  - destruct (classify capturer pcm) eqn:Hs; simpl.
    + intros H. left. repeat split. injection H as <-. reflexivity.
    + rewrite Hc. discriminate.
Qed.

(** A segment handed off by a frame is the open one with the frame
    added and an end time. *)
Lemma body_handoff st ts pcm seg' warning :
  snd (body self capturer st (ts, pcm)) = Some (seg', warning) ->
  exists seg e,
    cur_segment st = Some seg /\
    seg' = AudioSegment.set_end_time (AudioSegment.append seg pcm) e /\
    (e = ts \/ last_activity (extend st (AudioSegment.append seg pcm)
                                (classify capturer pcm) ts) = Some e).
Proof.
  unfold body. destruct (cur_segment st) as [seg |] eqn:Hc.
  - destruct (silence_end self _).
    + simpl. destruct (float_ge _ _); [| discriminate].
      intros H. injection H as <- _. exists seg. eexists.
      split; [reflexivity |]. split; [reflexivity |].
      unfold or_float.
      destruct (last_activity _) as [la |]; [| left; reflexivity].
      destruct (float_truthy la); [right | left]; reflexivity.
    + destruct (timed_out self ts _); [| discriminate].
      simpl. intros H. injection H as <- _. exists seg, ts.
      split; [reflexivity |]. split; [reflexivity | left; reflexivity].
  - destruct (classify capturer pcm); simpl; discriminate.
Qed.

Lemma feed_opens_on_speech (frames : list Frame) :
  forall pre st,
    (forall seg, cur_segment st = Some seg -> Trace.opens_on_speech capturer pre seg) ->
    (forall seg, cur_segment (fst (feed self capturer st frames)) = Some seg ->
                 Trace.opens_on_speech capturer (pre ++ frames) seg) /\
    (forall seg warning, In (seg, warning) (snd (feed self capturer st frames)) ->
                         Trace.opens_on_speech capturer (pre ++ frames) seg).
Proof.
  induction frames as [| [ts pcm] rest IH]; intros pre st Hinv.
  - simpl. rewrite app_nil_r. split; [exact Hinv | intros ? ? []].
  - assert (Hgrow : forall seg, cur_segment st = Some seg ->
              Trace.opens_on_speech capturer (pre ++ [(ts, pcm)])
                                    (AudioSegment.append seg pcm)).
    { intros seg Hc.
      apply (opens_on_speech_grow _ seg); [reflexivity | eexists; reflexivity |].
      apply opens_on_speech_more, Hinv, Hc. }
    assert (Hnext : forall seg,
              cur_segment (fst (body self capturer st (ts, pcm))) = Some seg ->
              Trace.opens_on_speech capturer (pre ++ [(ts, pcm)]) seg).
    { intros seg' H. apply body_cur_segment in H.
      destruct H as [(Hc & Hs & ->) | (seg & Hc & ->)].
      - exists pcm, []. repeat split; [exact Hs |].
        apply in_or_app. right. left. reflexivity.
      - apply Hgrow, Hc. }
    assert (Hout : forall seg warning,
              snd (body self capturer st (ts, pcm)) = Some (seg, warning) ->
              Trace.opens_on_speech capturer (pre ++ [(ts, pcm)]) seg).
    { intros seg' warning H. apply body_handoff in H.
      destruct H as (seg & e & Hc & -> & _).
      apply (opens_on_speech_grow _ (AudioSegment.append seg pcm));
        [reflexivity | exists []; simpl; rewrite app_nil_r; reflexivity |].
      apply Hgrow, Hc. }
    specialize (IH (pre ++ [(ts, pcm)]) _ Hnext).
    rewrite <- app_assoc in IH.
    change ([(ts, pcm)] ++ rest) with ((ts, pcm) :: rest) in IH.
    cbn [feed].
    destruct (body self capturer st (ts, pcm)) as [st1 out].
    cbn [fst snd] in IH, Hout.
    destruct (feed self capturer st1 rest) as [st2 outs].
    cbn [fst snd] in IH |- *.
    destruct IH as [IH1 IH2]. split; [exact IH1 |].
    intros seg warning Hin. apply in_app_or in Hin. destruct Hin as [Hin | Hin].
    + destruct out as [[seg0 w0] |]; simpl in Hin; [| contradiction].
      destruct Hin as [Heq | []]. injection Heq as -> ->.
      change (pre ++ (ts, pcm) :: rest) with (pre ++ [(ts, pcm)] ++ rest).
      rewrite app_assoc. apply opens_on_speech_more. apply (Hout _ _ eq_refl).
    + apply (IH2 _ _ Hin).
Qed.

(** C6. A segment is opened only from idle and only by a speech frame;
    a silent frame met in idle changes nothing and is stored nowhere.
    So along every frame sequence the open segment and every segment
    handed off start with a speech frame of the sequence, whose time
    stamp is the segment's [start_time]. *)
Theorem segments_open_on_speech_only (frames : list Frame) :
  (forall st ts pcm,
      cur_segment st = None -> classify capturer pcm = false ->
      body self capturer st (ts, pcm) = (st, None)) /\
  (forall st ts pcm seg',
      cur_segment (fst (body self capturer st (ts, pcm))) = Some seg' ->
      (cur_segment st = None /\ classify capturer pcm = true /\
       seg' = AudioSegment.mk ts None [pcm]) \/
      (exists seg, cur_segment st = Some seg /\
                   seg' = AudioSegment.append seg pcm)) /\
  (forall seg,
      cur_segment (fst (feed self capturer initial frames)) = Some seg ->
      Trace.opens_on_speech capturer frames seg) /\
  (forall seg warning,
      In (seg, warning) (snd (feed self capturer initial frames)) ->
      Trace.opens_on_speech capturer frames seg).
Proof.
  split; [| split].
  - intros st ts pcm Hc Hs. unfold body. rewrite Hc, Hs. reflexivity.
  - apply body_cur_segment.
  - apply (feed_opens_on_speech frames [] initial). discriminate.
Qed.

Lemma nondecreasing_cons (x y : Q) (l : list Q) :
  Trace.nondecreasing (x :: y :: l) = true ->
  (x <= y)%Q /\ Trace.nondecreasing (y :: l) = true.
Proof.
  cbn [Trace.nondecreasing]. intros H. apply andb_prop in H.
  destruct H as [H1 H2]. split; [apply Qle_bool_iff, H1 | exact H2].
Qed.

Lemma nondecreasing_head_le (l : list Q) :
  forall x, Trace.nondecreasing (x :: l) = true -> Forall (fun y => (x <= y)%Q) l.
Proof.
  induction l as [| y l IH]; intros x H; [constructor |].
  apply nondecreasing_cons in H. destruct H as [Hxy Hrest].
  constructor; [exact Hxy |].
  specialize (IH y Hrest).
  eapply Forall_impl; [exact IH |].
  intros z Hz. simpl in Hz. apply (Qle_trans _ _ _ Hxy Hz).
Qed.

Lemma extend_last_activity st seg b ts la :
  last_activity (extend st seg b ts) = Some la ->
  (b = true /\ la = ts) \/ last_activity st = Some la.
Proof.
  unfold extend. destruct b; simpl; intros H.
  - left. split; [reflexivity | congruence].
  - right. exact H.
Qed.

Lemma body_open_ok st ts pcm (rest : list Frame) :
  Trace.nondecreasing (ts :: map fst rest) = true ->
  Trace.open_ok st ((ts, pcm) :: rest) ->
  Trace.open_ok (fst (body self capturer st (ts, pcm))) rest.
Proof.
  intros Hsorted Hok. unfold Trace.open_ok in *.
  destruct (cur_segment (fst (body self capturer st (ts, pcm)))) as [seg' |] eqn:Hafter;
    [| exact I].
  pose proof Hafter as Hcase. apply body_cur_segment in Hcase.
  destruct Hcase as [(Hc & Hs & ->) | (seg & Hc & ->)].
  - rewrite (body_idle_speech self capturer st ts pcm Hc Hs). simpl.
    split; [discriminate |]. split.
    + intros la Hla. injection Hla as <-. apply Qle_refl.
    + apply nondecreasing_head_le in Hsorted.
      apply (proj1 (List.Forall_map fst (fun y => (ts <= y)%Q) rest)) in Hsorted.
      exact Hsorted.
  - rewrite Hc in Hok. destruct Hok as (Hne & Hla & Hahead).
    inversion Hahead as [| ? ? Hts Hrest]; subst. simpl in Hts.
    split; [| split].
    + simpl. intros H. apply app_eq_nil in H. destruct H as [_ H]. discriminate.
    + assert (Hst : fst (body self capturer st (ts, pcm)) =
                    extend st (AudioSegment.append seg pcm) (classify capturer pcm) ts).
      { unfold body in *. rewrite Hc in *.
        destruct (silence_end self _); [discriminate |].
        destruct (timed_out self ts _); [discriminate | reflexivity]. }
      rewrite Hst. intros la H. apply extend_last_activity in H.
      destruct H as [[_ ->] | H]; [exact Hts | apply Hla, H].
    + exact Hrest.
Qed.

Lemma body_handoff_well_formed st ts pcm (rest : list Frame) seg warning :
  Trace.open_ok st ((ts, pcm) :: rest) ->
  snd (body self capturer st (ts, pcm)) = Some (seg, warning) ->
  Trace.well_formed seg.
Proof.
  intros Hok H. apply body_handoff in H.
  destruct H as (seg0 & e & Hc & -> & He).
  unfold Trace.open_ok in Hok. rewrite Hc in Hok.
  destruct Hok as (_ & Hla & Hahead).
  inversion Hahead as [| ? ? Hts _]; subst. simpl in Hts.
  split.
  - simpl. intros H. apply app_eq_nil in H. destruct H as [_ H]. discriminate.
  - exists e. split; [reflexivity |]. simpl.
    destruct He as [-> | He]; [exact Hts |].
    apply extend_last_activity in He.
    destruct He as [[_ ->] | He]; [exact Hts | apply Hla, He].
Qed.

Lemma feed_well_formed (frames : list Frame) :
  forall st,
    Trace.nondecreasing (map fst frames) = true ->
    Trace.open_ok st frames ->
    forall seg warning,
      In (seg, warning) (snd (feed self capturer st frames)) ->
      Trace.well_formed seg.
Proof.
  induction frames as [| [ts pcm] rest IH]; intros st Hsorted Hok seg warning Hin;
    [destruct Hin |].
  pose proof (body_open_ok st ts pcm rest Hsorted Hok) as Hnext.
  pose proof (body_handoff_well_formed st ts pcm rest) as Hout.
  assert (Hrest : Trace.nondecreasing (map fst rest) = true).
  { destruct rest as [| [ts' pcm'] rest']; [reflexivity |].
    apply (nondecreasing_cons ts ts' _ Hsorted). }
  cbn [feed] in Hin.
  destruct (body self capturer st (ts, pcm)) as [st1 out].
  cbn [fst snd] in Hnext, Hout.
  specialize (IH st1 Hrest Hnext).
  destruct (feed self capturer st1 rest) as [st2 outs].
  cbn [fst snd] in IH, Hin.
  apply in_app_or in Hin. destruct Hin as [Hin | Hin].
  - destruct out as [[seg0 w0] |]; simpl in Hin; [| contradiction].
    destruct Hin as [Heq | []]. injection Heq as -> ->.
    apply (Hout seg warning Hok eq_refl).
  - apply (IH _ _ Hin).
Qed.

(** An open segment always has a last speech stamp, and it is one of
    the stamps met so far; so with nonzero stamps [last_activity or ts]
    is [last_activity]. *)
Lemma feed_last_activity (frames : list Frame) :
  forall st,
    (forall seg, cur_segment st = Some seg ->
                 exists la, last_activity st = Some la /\ ~ (la == 0)%Q) ->
    Forall (fun f => ~ (fst f == 0)%Q) frames ->
    forall seg, cur_segment (fst (feed self capturer st frames)) = Some seg ->
      exists la, last_activity (fst (feed self capturer st frames)) = Some la /\
                 ~ (la == 0)%Q.
Proof.
  induction frames as [| [ts pcm] rest IH]; intros st Hinv Hnz; [exact Hinv |].
  inversion Hnz as [| ? ? Hts Hrest]; subst. simpl in Hts.
  assert (Hnext : forall seg,
            cur_segment (fst (body self capturer st (ts, pcm))) = Some seg ->
            exists la, last_activity (fst (body self capturer st (ts, pcm))) = Some la /\
                       ~ (la == 0)%Q).
  { intros seg' H. pose proof H as Hcase. apply body_cur_segment in Hcase.
    destruct Hcase as [(Hc & Hs & ->) | (seg & Hc & ->)].
    - rewrite (body_idle_speech self capturer st ts pcm Hc Hs). simpl.
      exists ts. split; [reflexivity | exact Hts].
    - destruct (Hinv seg Hc) as (la & Hla & Hla0).
      unfold body in *. rewrite Hc in *.
      destruct (silence_end self _); [discriminate |].
      destruct (timed_out self ts _); [discriminate |].
      unfold extend. destruct (classify capturer pcm); simpl.
      + exists ts. split; [reflexivity | exact Hts].
      + exists la. split; [exact Hla | exact Hla0]. }
  cbn [feed].
  destruct (body self capturer st (ts, pcm)) as [st1 out]. cbn [fst] in Hnext.
  specialize (IH st1 Hnext Hrest).
  destruct (feed self capturer st1 rest) as [st2 outs]. exact IH.
Qed.

(** C7. When the time stamps of the frames never go back, every
    segment the segmenter hands off, by silence or by timeout, holds at
    least one chunk and has an [end_time], not before its
    [start_time]. *)
Theorem emitted_segments_well_formed (frames : list Frame) :
  Trace.nondecreasing (map fst frames) = true ->
  forall seg warning,
    In (seg, warning) (snd (feed self capturer initial frames)) ->
    AudioSegment.samples seg <> [] /\
    exists e, AudioSegment.end_time seg = Some e /\
              (AudioSegment.start_time seg <= e)%Q.
Proof.
  intros Hsorted seg warning Hin.
  apply (feed_well_formed frames initial Hsorted I seg warning Hin).
Qed.

End SegmenterTrace.

(** ** Back-pressure on the two channels *)

Section BackPressure.

Import RealTimeCapturer Segmenter.

(** C8. A push onto a full channel drops the new item and logs one
    warning.  The audio callback returns normally with the capturer,
    its queue included, as it was; the segmenter's hand-off returns
    normally with the out queue as it was, and the segmenter's locals
    are those the loop body computed, whatever the state of the
    queue. *)
Theorem full_channel_drops_and_warns :
  (forall (self : RealTimeCapturer.t) indata status ts (log : Log),
      Queue.full (q self) = true ->
      _callback self indata status ts log =
        Returned (self, log ++ [(WARNING, "Audio queue full; dropping audio frame."%string)])) /\
  (forall (seg : AudioSegment.t) warning (out_queue : Queue.t AudioSegment.t) (log : Log),
      Queue.full out_queue = true ->
      emit (Some (seg, warning)) (out_queue, log) =
        Returned (out_queue, log ++ [(WARNING, warning)])) /\
  (forall (self : Segmenter.t) capturer st frame seg warning
          (out_queue : Queue.t AudioSegment.t) (log : Log),
      snd (body self capturer st frame) = Some (seg, warning) ->
      Queue.full out_queue = true ->
      step self capturer st frame (out_queue, log) =
        Returned (fst (body self capturer st frame),
                  (out_queue, log ++ [(WARNING, warning)])) /\
      (warning = "Out queue full; dropping segment."%string \/
       warning = "Out queue full; dropping long segment."%string)) /\
  (forall (self : Segmenter.t) capturer st frame w,
      exists w', step self capturer st frame w =
                 Returned (fst (body self capturer st frame), w')).
Proof.
  split; [| split; [| split]].
  - intros self indata status ts log Hfull.
    unfold _callback, Queue.put_nowait, Queue.put. rewrite Hfull.
    destruct (str_truthy status); reflexivity.
  - intros seg warning out_queue log Hfull.
    unfold emit, Queue.put_nowait, Queue.put. simpl. rewrite Hfull. reflexivity.
  - intros self capturer st frame seg warning out_queue log Hout Hfull. split.
    + unfold step. destruct (body self capturer st frame) as [st' out].
      simpl in Hout. subst out.
      unfold emit, Queue.put_nowait, Queue.put. simpl. rewrite Hfull. reflexivity.
    + destruct frame as [ts pcm]. unfold body in Hout.
      destruct (cur_segment st).
      * destruct (silence_end self _).
        -- simpl in Hout. destruct (float_ge _ _); [| discriminate].
           injection Hout as _ <-. left. reflexivity.
        -- destruct (timed_out self ts _); [| discriminate].
           injection Hout as _ <-. right. reflexivity.
      * destruct (classify capturer pcm); discriminate.
  - intros self capturer st frame [out_queue log]. unfold step.
    destruct (body self capturer st frame) as [st' [[seg warning] |]].
    + unfold emit, Queue.put_nowait, Queue.put. simpl.
      destruct (Queue.full out_queue); eexists; reflexivity.
    + eexists. reflexivity.
Qed.

End BackPressure.

(** ** STT worker *)

Section Worker.

Import STTWorker.

Lemma body_backend_raises self sample_rate srt_writer seg w e :
  stt self (AudioSegment.get_pcm_bytes seg) sample_rate = Raised e ->
  body self sample_rate srt_writer seg w =
    Returned (self, mkW (ui_calls w) (fs w)
                        (log w ++ [(ERROR, "STT backend error: " +:+ str_of_exc e)])).
Proof. intros H. unfold body. rewrite H. reflexivity. Qed.

Lemma body_backend_mute self sample_rate srt_writer seg w conf :
  stt self (AudioSegment.get_pcm_bytes seg) sample_rate = Returned (""%string, conf) ->
  body self sample_rate srt_writer seg w =
    Returned (self, mkW (ui_calls w) (fs w) (log w)).
Proof. intros H. unfold body. rewrite H. reflexivity. Qed.

Lemma serve_failing_backend backend sample_rate srt_writer segs :
  (forall pcm sr, exists e, backend pcm sr = Raised e) ->
  forall w, exists log',
    serve (STTWorker.__init__ backend) sample_rate srt_writer segs w =
      Returned (STTWorker.__init__ backend, mkW (ui_calls w) (fs w) log').
Proof.
  intros Hfail. induction segs as [| seg rest IH]; intros w.
  - exists (log w). destruct w; reflexivity.
  - destruct (Hfail (AudioSegment.get_pcm_bytes seg) sample_rate) as [e He].
    cbn [serve].
    rewrite (body_backend_raises (STTWorker.__init__ backend) sample_rate srt_writer seg w e He).
    cbn [mbind outcome_bind Py.bind fst snd].
    destruct (IH (mkW (ui_calls w) (fs w)
                     (log w ++ [(ERROR, "STT backend error: " +:+ str_of_exc e)])))
      as [log' Hlog'].
    exists log'. exact Hlog'.
Qed.

(** C2. For a segment on which the backend raises or returns empty
    text, the worker writes no subtitle entry, calls the caption sink
    not at all, keeps its sequence number, and goes on with the
    segments that follow.  With a backend that raises on every call,
    any sequence of segments is served to the end with the subtitle
    files and the caption sink untouched and the sequence number
    still 1. *)
Theorem failed_transcription_leaves_no_trace :
  (forall self sample_rate srt_writer seg w,
      (exists e, stt self (AudioSegment.get_pcm_bytes seg) sample_rate = Raised e) \/
      (exists conf, stt self (AudioSegment.get_pcm_bytes seg) sample_rate =
                    Returned (""%string, conf)) ->
      exists log',
        body self sample_rate srt_writer seg w =
          Returned (self, mkW (ui_calls w) (fs w) log') /\
        forall rest,
          serve self sample_rate srt_writer (seg :: rest) w =
            serve self sample_rate srt_writer rest (mkW (ui_calls w) (fs w) log')) /\
  (forall backend sample_rate srt_writer segs w,
      (forall pcm sr, exists e, backend pcm sr = Raised e) ->
      exists log',
        serve (STTWorker.__init__ backend) sample_rate srt_writer segs w =
          Returned (STTWorker.mk backend 1, mkW (ui_calls w) (fs w) log')).
Proof.
  split.
  - intros self sample_rate srt_writer seg w [[e He] | [conf Hc]].
    + eexists. split.
      * apply (body_backend_raises _ _ _ _ _ _ He).
      * intros rest. cbn [serve].
        rewrite (body_backend_raises _ _ srt_writer _ w _ He). reflexivity.
    + eexists. split.
      * apply (body_backend_mute _ _ _ _ _ _ Hc).
      * intros rest. cbn [serve].
        rewrite (body_backend_mute _ _ srt_writer _ w _ Hc). reflexivity.
  - intros backend sample_rate srt_writer segs w Hfail.
    apply (serve_failing_backend backend sample_rate srt_writer segs Hfail w).
Qed.

End Worker.

(** ** Subtitle file *)

Section SubtitleFile.

Import SRTWriter.

Lemma write_entries_appends self entries :
  forall (fs : gmap string string) acc,
    fs !! filename self = Some acc ->
    write_entries self entries fs !! filename self =
      Some (fold_left (fun acc e => let '(idx, start_ts, end_ts, text) := e in
                                    acc +:+ entry_text idx start_ts end_ts text)
                      entries acc).
Proof.
  unfold write_entries.
  induction entries as [| [[[idx s] e] text] rest IH]; intros fs acc Hacc.
  - exact Hacc.
  - cbn [fold_left]. apply IH.
    unfold write_entry. rewrite Hacc. simpl. apply lookup_insert_eq.
Qed.

(** C10. Constructing the writer leaves an empty file at the path,
    whatever was there, and touches no other file; every [write_entry]
    only adds at the end, so after the constructor the file holds the
    entries written since and nothing older. *)
Theorem init_truncates_subtitle_file (fs : gmap string string) (path : string)
    (entries : list (Z * Q * Q * string)) :
  let writer := fst (SRTWriter.__init__ path fs) in
  let fs0 := snd (SRTWriter.__init__ path fs) in
  fs0 !! path = Some ""%string /\
  (forall other, other <> path -> fs0 !! other = fs !! other) /\
  (forall (fs1 : gmap string string) idx start_ts end_ts text,
      write_entry writer idx start_ts end_ts text fs1 !! path =
        Some (default ""%string (fs1 !! path) +:+ entry_text idx start_ts end_ts text)) /\
  write_entries writer entries fs0 !! path = Some (entries_text entries).
Proof.
  simpl. split; [apply lookup_insert_eq |]. split; [| split].
  - intros other Hne. apply lookup_insert_ne. congruence.
  - intros fs1 idx start_ts end_ts text. unfold write_entry. simpl.
    apply lookup_insert_eq.
  - apply (write_entries_appends (SRTWriter.mk path) entries).
    simpl. apply lookup_insert_eq.
Qed.

End SubtitleFile.


(** ** Worked instances on the shipped configuration *)

Section Instances.

Import RealTimeCapturer Segmenter.

Lemma demo_segmenter_init :
  Segmenter.__init__ Demo.capturer 250 700 10 = Returned Demo.segmenter.
Proof. reflexivity. Qed.




(** C4 as stated fails: after ten seconds of unbroken speech the
    segment is still open; the first silent frame, a run of one, does
    not meet the silence test but is past the timeout, and the forced
    flush closes the segment. *)
Lemma run_of_one_silent_frame_closed_by_timeout :
  let st := fst (feed Demo.segmenter Demo.capturer initial Demo.long_speech) in
  let '(ts, pcm) := Demo.first_pause in
  Segmenter.__init__ Demo.capturer 250 700 10 = Returned Demo.segmenter /\
  block_duration_ms Demo.capturer = 30 /\
  silence_frame_count st = 0 /\
  classify Demo.capturer pcm = false /\
  exists seg,
    cur_segment st = Some seg /\
    silence_end Demo.segmenter
      (extend st (AudioSegment.append seg pcm) (classify Demo.capturer pcm) ts) = false /\
    body Demo.segmenter Demo.capturer st (ts, pcm) =
      (initial,
       Some (AudioSegment.set_end_time (AudioSegment.append seg pcm) ts,
             "Out queue full; dropping long segment."%string)).
Proof.
  cbv zeta. change Demo.first_pause with ((101002 # 100)%Q, Demo.silent). cbv iota beta.
  split; [reflexivity |]. split; [reflexivity |].
  split; [vm_compute; reflexivity |].
  split; [vm_compute; reflexivity |].
  eexists. split; [vm_compute; reflexivity |].
  split; vm_compute; reflexivity.
Qed.

Lemma silence_end_on_24th_silent_frame_witness :
  block_duration_ms Demo.capturer = 30 /\
  Segmenter.__init__ Demo.capturer 250 700 10 = Returned Demo.segmenter /\
  max_silence_frames Demo.segmenter = 24 /\
  fst (feed Demo.segmenter Demo.capturer Demo.just_opened
         (Demo.frames_at (100003 # 100) (3 # 100) 23 Demo.silent ++
          [((100072 # 100)%Q, Demo.silent)])) = initial.
Proof.
  split; [reflexivity |]. split; [reflexivity |].
  destruct (silence_end_on_24th_silent_frame Demo.segmenter Demo.capturer 250 10
              eq_refl eq_refl) as (Hmax & _ & _ & Hclose).
  split; [exact Hmax |].
  apply (Hclose Demo.one_chunk 1 (Some 1000%Q)
           (Demo.frames_at (100003 # 100) (3 # 100) 23 Demo.silent)
           ((100072 # 100)%Q, Demo.silent)).
  - unfold Demo.frames_at. cbn [seq map app].
    repeat (constructor; [vm_compute; reflexivity |]). constructor.
  - unfold Demo.frames_at. cbn [seq map app].
    repeat (constructor; [vm_compute; reflexivity |]). constructor.
  - reflexivity.
Defined.



Lemma segments_open_on_speech_only_witness :
  Trace.opens_on_speech Demo.capturer
    [(1000%Q, Demo.silent); ((100003 # 100)%Q, Demo.voiced); ((10105 # 10)%Q, Demo.silent)]
    (AudioSegment.mk (100003 # 100) (Some (10105 # 10)%Q) [Demo.voiced; Demo.silent]).
Proof.
  destruct (segments_open_on_speech_only Demo.segmenter Demo.capturer
              [(1000%Q, Demo.silent); ((100003 # 100)%Q, Demo.voiced);
               ((10105 # 10)%Q, Demo.silent)]) as (_ & _ & _ & Hout).
  apply (Hout _ "Out queue full; dropping long segment."%string).
  vm_compute. left. reflexivity.
Defined.

Lemma emitted_segments_well_formed_witness :
  let seg := AudioSegment.mk 1000 (Some (10105 # 10)%Q) [Demo.voiced; Demo.voiced] in
  Trace.nondecreasing [1000%Q; (10105 # 10)%Q] = true /\
  AudioSegment.samples seg <> [] /\
  exists e, AudioSegment.end_time seg = Some e /\ (AudioSegment.start_time seg <= e)%Q.
Proof.
  split; [reflexivity |].
  apply (emitted_segments_well_formed Demo.segmenter Demo.capturer
           [(1000%Q, Demo.voiced); ((10105 # 10)%Q, Demo.voiced)] eq_refl
           _ "Out queue full; dropping long segment."%string).
  vm_compute. left. reflexivity.
Defined.

Lemma full_channel_drops_and_warns_witness :
  Queue.full (q Demo.full_capturer) = true /\
  _callback Demo.full_capturer [[7]; [9]] "" (1000 # 1) [] =
    Returned (Demo.full_capturer,
              [(WARNING, "Audio queue full; dropping audio frame."%string)]) /\
  Queue.full Demo.full_out_queue = true /\
  step Demo.segmenter Demo.capturer Demo.just_opened ((10105 # 10)%Q, Demo.voiced)
       (Demo.full_out_queue, []) =
    Returned (initial,
              (Demo.full_out_queue,
               [(WARNING, "Out queue full; dropping long segment."%string)])).
Proof.
  destruct full_channel_drops_and_warns as (Hcb & _ & Hstep & _).
  split; [reflexivity |]. split; [apply (Hcb Demo.full_capturer); reflexivity |].
  split; [reflexivity |].
  apply (Hstep Demo.segmenter Demo.capturer Demo.just_opened
           ((10105 # 10)%Q, Demo.voiced)
           (AudioSegment.mk 1000 (Some (10105 # 10)%Q) [Demo.voiced; Demo.voiced])
           "Out queue full; dropping long segment."%string
           Demo.full_out_queue []); reflexivity.
Defined.

Lemma failed_transcription_leaves_no_trace_witness :
  exists log',
    STTWorker.serve (STTWorker.__init__ Demo.failing_backend) 16000
      (SRTWriter.mk "captions.srt") [Demo.spoken; Demo.spoken]
      (STTWorker.mkW [] ∅ []) =
    Returned (STTWorker.mk Demo.failing_backend 1, STTWorker.mkW [] ∅ log').
Proof.
  destruct failed_transcription_leaves_no_trace as [_ Hall].
  apply (Hall Demo.failing_backend 16000 (SRTWriter.mk "captions.srt")
           [Demo.spoken; Demo.spoken] (STTWorker.mkW [] ∅ [])).
  intros pcm sr. eexists. reflexivity.
Defined.

Lemma init_truncates_subtitle_file_witness :
  snd (SRTWriter.__init__ "captions.srt"
         (<["captions.srt"%string := "stale"%string]> (∅ : gmap string string)))
    !! "captions.srt"%string = Some ""%string.
Proof.
  destruct (init_truncates_subtitle_file
              (<["captions.srt"%string := "stale"%string]> ∅) "captions.srt" [])
    as (Hcut & _).
  exact Hcut.
Defined.

(** The worker on a backend that answers: one caption, one entry, and
    the sequence number moves on. *)
Example echo_backend_writes_entry :
  STTWorker.serve (STTWorker.__init__ Demo.echo_backend) 16000
    (SRTWriter.mk "captions.srt") [Demo.spoken]
    (STTWorker.mkW [] (<["captions.srt"%string := ""%string]> ∅) []) =
  Returned (STTWorker.mk Demo.echo_backend 2,
            STTWorker.mkW ["hello"%string]
              (<["captions.srt"%string :=
                   SRTWriter.entry_text 1 1000 1001 "hello"]> ∅) []).
Proof.
  cbn [STTWorker.serve]. unfold STTWorker.body. simpl.
  unfold SRTWriter.write_entry. simpl.
  rewrite lookup_insert_eq, insert_insert_eq. reflexivity.
Qed.

Example entry_block :
  SRTWriter.entry_text 1 1000 1001 "hello" =
    ("1" +:+ SRTWriter.nl +:+ "00:16:40,000 --> 00:16:41,000" +:+ SRTWriter.nl +:+
     "hello" +:+ SRTWriter.nl +:+ SRTWriter.nl)%string.
Proof. vm_compute. reflexivity. Qed.

(** Ten speech frames 30 ms apart span 270 ms: the 24th silent frame
    after them hands the segment off, ending at the last speech frame. *)
Example utterance_of_270ms_emitted :
  exists seg,
    snd (feed Demo.segmenter Demo.capturer initial
           (Demo.frames_at 1000 (3 # 100) 10 Demo.voiced ++
            Demo.frames_at (10003 # 10) (3 # 100) 24 Demo.silent)) =
      [(seg, "Out queue full; dropping segment."%string)] /\
    (AudioSegment.duration seg * 1000 == 270)%Q /\
    length (AudioSegment.samples seg) = 34%nat.
Proof.
  eexists. split; [vm_compute; reflexivity |].
  split; vm_compute; reflexivity.
Qed.

End Instances.

(* ================================================================== *)
(** * Further properties of the program *)

(** ** Subtitle stamps *)

Section Stamps.

Import TimestampSpec StampReader.










End Stamps.

(** ** Segmenter, further *)

Section SegmenterMore.

Import RealTimeCapturer Segmenter.

Variable self : Segmenter.t.
Variable capturer : RealTimeCapturer.t.

(** Whatever each turn of the body keeps and hands off, a whole frame
    sequence keeps and hands off. *)
Lemma feed_invariant (Inv : Locals -> Prop) (P : Handoff -> Prop) :
  (forall st f, Inv st ->
     Inv (fst (body self capturer st f)) /\
     forall h, snd (body self capturer st f) = Some h -> P h) ->
  forall frames st, Inv st ->
    Inv (fst (feed self capturer st frames)) /\
    forall h, In h (snd (feed self capturer st frames)) -> P h.
Proof.
  intros Hbody. induction frames as [| f rest IH]; intros st Hinv.
  - split; [exact Hinv | intros h []].
  - destruct (Hbody st f Hinv) as [Hnext Hout].
    cbn [feed]. destruct (body self capturer st f) as [st1 out].
    cbn [fst snd] in Hnext, Hout.
    destruct (IH st1 Hnext) as [IH1 IH2].
    destruct (feed self capturer st1 rest) as [st2 outs].
    cbn [fst snd] in IH1, IH2 |- *.
    split; [exact IH1 |].
    intros h Hin. apply in_app_or in Hin. destruct Hin as [Hin | Hin].
    + destruct out as [h0 |]; simpl in Hin; [| contradiction].
      destruct Hin as [<- | []]. apply Hout. reflexivity.
    + apply IH2, Hin.
Qed.

Lemma ceil_least (m b k : Z) :
  0 < b -> m <= k * b -> ceil (inject_Z m / inject_Z b) <= k.
Proof.
  intros Hb Hk. unfold ceil.
  rewrite <- (Qceiling_Z k). apply Qceiling_resp_le.
  apply Qle_shift_div_r.
  - change 0%Q with (inject_Z 0). rewrite <- Zlt_Qlt. exact Hb.
  - rewrite <- inject_Z_mult, <- Zle_Qle. exact Hk.
Qed.

(** X3. The constructor fails with [ZeroDivisionError] on a frame
    length of zero.  For a frame length and durations below 2^53 in
    absolute value, the frame length positive, it succeeds; the ceiling
    of each quotient as a double holds it is the ceiling of the exact
    quotient; and [min_frames] and [max_silence_frames] are the least
    numbers of whole frames, at least one, that cover [min_speech_ms]
    and [max_silence_ms]. *)
Theorem init_counts_whole_frames (min_speech_ms max_silence_ms timeout : Z) :
  (block_duration_ms capturer = 0 ->
   Segmenter.__init__ capturer min_speech_ms max_silence_ms timeout =
     Raised ZeroDivisionError) /\
  (0 < block_duration_ms capturer < 2 ^ 53 ->
   Z.abs min_speech_ms < 2 ^ 53 ->
   Z.abs max_silence_ms < 2 ^ 53 ->
   ceil (to_double (inject_Z min_speech_ms / inject_Z (block_duration_ms capturer))) =
     ceil (inject_Z min_speech_ms / inject_Z (block_duration_ms capturer)) /\
   ceil (to_double (inject_Z max_silence_ms / inject_Z (block_duration_ms capturer))) =
     ceil (inject_Z max_silence_ms / inject_Z (block_duration_ms capturer)) /\
   exists s,
     Segmenter.__init__ capturer min_speech_ms max_silence_ms timeout = Returned s /\
     segment_timeout_s s = timeout /\
     (1 <= min_frames s /\
      min_speech_ms <= min_frames s * block_duration_ms capturer /\
      forall k, 1 <= k -> min_speech_ms <= k * block_duration_ms capturer ->
                min_frames s <= k) /\
     (1 <= max_silence_frames s /\
      max_silence_ms <= max_silence_frames s * block_duration_ms capturer /\
      forall k, 1 <= k -> max_silence_ms <= k * block_duration_ms capturer ->
                max_silence_frames s <= k)).
Proof.
  split.
  - intros Hz. unfold Segmenter.__init__, truediv. rewrite Hz. reflexivity.
  - intros Hblock Hmin Hmax.
    assert (Hpos : 0 < block_duration_ms capturer) by lia.
    split; [apply ceil_of_double_quotient; assumption |].
    split; [apply ceil_of_double_quotient; assumption |].
    unfold Segmenter.__init__, truediv.
    replace (block_duration_ms capturer =? 0) with false
      by (symmetry; apply Z.eqb_neq; lia).
    eexists. split; [reflexivity |]. cbn [segment_timeout_s min_frames max_silence_frames].
    split; [reflexivity |].
    split; (split; [lia |]; split;
            [apply frames_cover_min_speech; exact Hpos |
             intros k Hk Hcover; pose proof (ceil_least _ _ _ Hpos Hcover); lia]).
Qed.


Lemma body_keeps_pause_shape (st : Locals) (f : Frame) :
  1 <= max_silence_frames self ->
  (forall seg, cur_segment st = Some seg ->
     0 <= silence_frame_count st < max_silence_frames self /\
     Shape.ends_in_silence capturer (silence_frame_count st) (AudioSegment.samples seg)) ->
  (forall seg, cur_segment (fst (body self capturer st f)) = Some seg ->
     0 <= silence_frame_count (fst (body self capturer st f)) < max_silence_frames self /\
     Shape.ends_in_silence capturer
       (silence_frame_count (fst (body self capturer st f))) (AudioSegment.samples seg)) /\
  (forall h, snd (body self capturer st f) = Some h ->
     snd h = "Out queue full; dropping segment."%string ->
     Shape.ends_in_silence capturer (max_silence_frames self)
       (AudioSegment.samples (fst h))).
Proof.
  intros Hmax Hinv. destruct f as [ts pcm]. unfold body.
  destruct (cur_segment st) as [seg |] eqn:Hc.
  - destruct (Hinv seg eq_refl) as (Hcount & front & speech & run & Hs & Hsp & Hrun & Hlen).
    unfold silence_end, extend.
    destruct (classify capturer pcm) eqn:Hcl;
      cbn [silence_frame_count last_activity cur_segment].
    + replace (max_silence_frames self <=? 0) with false
        by (symmetry; apply Z.leb_gt; lia).
      destruct (timed_out self ts _).
      * split; [discriminate |]. intros h Hh Hmsg. injection Hh as <-. discriminate.
      * split; [| discriminate].
        intros seg' Hseg'. injection Hseg' as <-. cbn [fst silence_frame_count].
        split; [lia |].
        exists (AudioSegment.samples seg), pcm, []. simpl.
        repeat split; [exact Hcl | constructor].
    + assert (Hgrow : Shape.ends_in_silence capturer (silence_frame_count st + 1)
                        (AudioSegment.samples seg ++ [pcm])).
      { exists front, speech, (run ++ [pcm]). rewrite Hs.
        split; [rewrite <- app_assoc; reflexivity |].
        split; [exact Hsp |]. split.
        - apply Forall_app. split; [exact Hrun | constructor; [exact Hcl | constructor]].
        - rewrite length_app, Nat2Z.inj_add. simpl. lia. }
      destruct (max_silence_frames self <=? silence_frame_count st + 1) eqn:Hend.
      * apply Z.leb_le in Hend.
        split; [discriminate |]. intros h Hh _. cbn [snd] in Hh.
        destruct (float_ge _ _); [| discriminate].
        injection Hh as <-. cbn [fst AudioSegment.set_end_time AudioSegment.append
                                  AudioSegment.samples].
        replace (max_silence_frames self) with (silence_frame_count st + 1) by lia.
        exact Hgrow.
      * apply Z.leb_gt in Hend. destruct (timed_out self ts _).
        -- split; [discriminate |]. intros h Hh Hmsg. injection Hh as <-. discriminate.
        -- split; [| discriminate].
           intros seg' Hseg'. injection Hseg' as <-. cbn [fst silence_frame_count].
           split; [lia | exact Hgrow].
  - destruct (classify capturer pcm) eqn:Hcl.
    + split; [| discriminate].
      intros seg' Hseg'. injection Hseg' as <-. cbn [fst silence_frame_count].
      split; [lia |]. exists [], pcm, []. simpl.
      repeat split; [exact Hcl | constructor].
    + split; [| discriminate]. cbn [fst]. rewrite Hc. discriminate.
Qed.

(** X5. A segment ended by silence carries its pause: its chunks end
    with a speech chunk followed by exactly [max_silence_frames] silent
    chunks (while [end_time] is the stamp of that last speech chunk). *)
Theorem silence_ended_segment_keeps_the_pause (frames : list Frame)
    (seg : AudioSegment.t) :
  1 <= max_silence_frames self ->
  In (seg, "Out queue full; dropping segment."%string)
     (snd (feed self capturer initial frames)) ->
  Shape.ends_in_silence capturer (max_silence_frames self) (AudioSegment.samples seg).
Proof.
  intros Hmax Hin.
  destruct (feed_invariant
              (fun st => forall seg, cur_segment st = Some seg ->
                 0 <= silence_frame_count st < max_silence_frames self /\
                 Shape.ends_in_silence capturer (silence_frame_count st)
                                       (AudioSegment.samples seg))
              (fun h => snd h = "Out queue full; dropping segment."%string ->
                 Shape.ends_in_silence capturer (max_silence_frames self)
                                       (AudioSegment.samples (fst h)))
              (fun st f Hinv => body_keeps_pause_shape st f Hmax Hinv)
              frames initial) as [_ Hout]; [discriminate |].
  apply (Hout _ Hin). reflexivity.
Qed.



End SegmenterMore.

(** ** The loops and the queues between them *)

Section LoopsAndQueues.

Import RealTimeCapturer.

Lemma callback_room (self : RealTimeCapturer.t) indata status ts (log : Log) :
  Queue.full (q self) = false ->
  _callback self indata status ts log =
    Returned (set_q self (Queue.mk (Queue.maxsize (q self))
                                   (Queue.items (q self) ++
                                    [Loops.to_frame self (indata, status, ts)])),
              log).
Proof.
  intros Hroom. unfold _callback, Queue.put_nowait, Queue.put. rewrite Hroom.
  destruct (str_truthy status); reflexivity.
Qed.

Lemma callback_full (self : RealTimeCapturer.t) indata status ts (log : Log) :
  Queue.full (q self) = true ->
  _callback self indata status ts log =
    Returned (self, log ++ [(WARNING, "Audio queue full; dropping audio frame."%string)]).
Proof.
  intros Hfull. unfold _callback, Queue.put_nowait, Queue.put. rewrite Hfull.
  destruct (str_truthy status); reflexivity.
Qed.

Lemma callbacks_bounded (blocks : list Loops.Block) :
  forall (self : RealTimeCapturer.t) (log : Log),
    0 < Queue.maxsize (q self) ->
    let room := (Z.to_nat (Queue.maxsize (q self)) - length (Queue.items (q self)))%nat in
    Loops.callbacks self blocks log =
      Returned
        (set_q self (Queue.mk (Queue.maxsize (q self))
                              (Queue.items (q self) ++
                               take room (map (Loops.to_frame self) blocks))),
         log ++ repeat (WARNING, "Audio queue full; dropping audio frame."%string)
                       (length blocks - room)).
Proof.
  induction blocks as [| [[indata status] ts] rest IH]; intros self log Hmax room.
  - simpl. rewrite take_nil, !app_nil_r.
    destruct self as [? ? ? ? ? [m items] ?]; reflexivity.
  - cbn [Loops.callbacks].
    destruct (Queue.full (q self)) eqn:Hfull.
    + rewrite (callback_full self indata status ts log Hfull).
      cbn [mbind outcome_bind Py.bind fst snd].
      rewrite (IH self _ Hmax). fold room.
      assert (Hroom : room = 0%nat).
      { unfold Queue.full, Queue.qsize in Hfull. apply andb_prop in Hfull.
        destruct Hfull as [_ Hle]. apply Z.leb_le in Hle. unfold room. lia. }
      rewrite Hroom, !take_0, Nat.sub_0_r, Nat.sub_0_r.
      cbn [length repeat]. rewrite <- app_assoc. reflexivity.
    + rewrite (callback_room self indata status ts log Hfull).
      cbn [mbind outcome_bind Py.bind fst snd].
      assert (Hroom : exists r, room = S r).
      { unfold Queue.full, Queue.qsize in Hfull.
        apply andb_false_iff in Hfull. destruct Hfull as [Hlt | Hle].
        - apply Z.ltb_ge in Hlt. lia.
        - apply Z.leb_gt in Hle. exists (room - 1)%nat. unfold room. lia. }
      destruct Hroom as [r Hr].
      rewrite (IH _ log) by (simpl; exact Hmax).
      cbn [q set_q Queue.maxsize Queue.items].
      rewrite length_app. cbn [length].
      replace (Z.to_nat (Queue.maxsize (q self)) -
               (length (Queue.items (q self)) + 1))%nat with r by (unfold room in Hr; lia).
      rewrite Hr. cbn [map take length Nat.sub].
      rewrite <- app_assoc. reflexivity.
Qed.

(** X7. Started on an empty queue, the capture queue holds the first
    100 frames of any sequence of audio blocks, in arrival order; every
    later block is dropped with one warning, and no callback raises or
    blocks. *)
Theorem capture_queue_keeps_first_100 (webrtcvad_Vad : Z -> Vad)
    (sample_rate block_duration_ms vad_aggressiveness channels : Z)
    (blocks : list Loops.Block) (log : Log) :
  let self := RealTimeCapturer.__init__ webrtcvad_Vad sample_rate block_duration_ms
                vad_aggressiveness channels in
  Loops.callbacks self blocks log =
    Returned
      (set_q self (Queue.mk 100 (take 100 (map (Loops.to_frame self) blocks))),
       log ++ repeat (WARNING, "Audio queue full; dropping audio frame."%string)
                     (length blocks - 100)).
Proof.
  intros self.
  apply (callbacks_bounded blocks self log). simpl. lia.
Qed.

Lemma feed_set_q (self : Segmenter.t) (capturer : RealTimeCapturer.t) q'
    (frames : list Frame) :
  forall st,
    Segmenter.feed self (set_q capturer q') st frames =
    Segmenter.feed self capturer st frames.
Proof.
  induction frames as [| f rest IH]; intros st; [reflexivity |].
  cbn [Segmenter.feed].
  change (Segmenter.body self (set_q capturer q') st f)
    with (Segmenter.body self capturer st f).
  destruct (Segmenter.body self capturer st f) as [st1 out].
  rewrite IH. reflexivity.
Qed.

Lemma segmenter_run_idle (n : nat) (self : Segmenter.t)
    (capturer : RealTimeCapturer.t) st w :
  Queue.items (q capturer) = [] ->
  Loops.segmenter_run n self (capturer, st, w) = Returned (capturer, st, w).
Proof.
  intros Hempty. induction n as [| n IH]; [reflexivity |].
  cbn [Loops.segmenter_run]. unfold Segmenter.run_iter at 1, Queue.get.
  rewrite Hempty. cbn [mbind outcome_bind Py.bind]. exact IH.
Qed.

Lemma segmenter_run_feed (frames : list Frame) :
  forall (n : nat) (self : Segmenter.t) (capturer : RealTimeCapturer.t) st
         (out_queue : Queue.t AudioSegment.t) (log : Log),
    Queue.items (q capturer) = frames ->
    (length frames <= n)%nat ->
    (Queue.maxsize out_queue <= 0 \/
     Z.of_nat (length (Queue.items out_queue) +
               length (snd (Segmenter.feed self capturer st frames)))
       <= Queue.maxsize out_queue) ->
    Loops.segmenter_run n self (capturer, st, (out_queue, log)) =
      Returned
        (set_q capturer (Queue.mk (Queue.maxsize (q capturer)) []),
         fst (Segmenter.feed self capturer st frames),
         (Queue.mk (Queue.maxsize out_queue)
                   (Queue.items out_queue ++
                    map fst (snd (Segmenter.feed self capturer st frames))),
          log)).
Proof.
  induction frames as [| f rest IH];
    intros n self capturer st out_queue log Hitems Hn Hroom.
  - rewrite (segmenter_run_idle n self capturer st _ Hitems).
    simpl. rewrite app_nil_r.
    destruct capturer as [? ? ? ? ? [m items] ?]. simpl in Hitems. subst items.
    destruct out_queue; reflexivity.
  - destruct n as [| n]; [simpl in Hn; lia |].
    cbn [Loops.segmenter_run]. unfold Segmenter.run_iter at 1, Queue.get.
    rewrite Hitems. unfold Segmenter.step.
    cbn [Segmenter.feed] in Hroom |- *.
    destruct (Segmenter.body self capturer st f) as [st1 out] eqn:Hbody.
    pose proof (feed_set_q self capturer (Queue.mk (Queue.maxsize (q capturer)) rest)
                  rest st1) as Hsame.
    destruct (Segmenter.feed self capturer st1 rest) as [st2 outs] eqn:Hfeed.
    cbn [fst snd] in Hroom |- *.
    assert (Hlen : (length rest <= n)%nat) by (simpl in Hn; lia).
    destruct out as [[seg warning] |].
    + assert (Hfree : Queue.full out_queue = false).
      { unfold Queue.full, Queue.qsize. apply andb_false_iff.
        destruct Hroom as [Hunb | Hfit].
        - left. apply Z.ltb_ge. exact Hunb.
        - right. apply Z.leb_gt. simpl in Hfit. lia. }
      unfold Segmenter.emit, Queue.put_nowait, Queue.put. cbn [fst snd].
      rewrite Hfree. cbn [mbind outcome_bind Py.bind mret outcome_ret fst snd].
      rewrite (IH n self _ st1 _ log); [| reflexivity | exact Hlen |].
      * rewrite Hsame. cbn [fst snd Queue.maxsize Queue.items q set_q option_list
                            app map].
        rewrite <- app_assoc. reflexivity.
      * rewrite Hsame. cbn [fst snd Queue.maxsize Queue.items].
        destruct Hroom as [Hunb | Hfit]; [left; exact Hunb | right].
        rewrite length_app. simpl in Hfit |- *. lia.
    + cbn [Segmenter.emit mbind outcome_bind Py.bind mret outcome_ret fst snd].
      rewrite (IH n self _ st1 _ log); [| reflexivity | exact Hlen |].
      * rewrite Hsame. reflexivity.
      * rewrite Hsame. exact Hroom.
Qed.

(** A turn on a frame the detector accepts is the turn of the loop
    whose detector is the capturer's [vad] field. *)
Lemma iter_accepted (detector : Fallible.Detector) (self : Segmenter.t)
    (capturer : RealTimeCapturer.t) st w (f : Frame) (rest : list Frame) :
  Queue.items (q capturer) = f :: rest ->
  detector (Np.tobytes (snd f)) (sample_rate capturer) =
    Returned (Segmenter.classify capturer (snd f)) ->
  Fallible.segmenter_iter detector self (capturer, st, w) =
    Segmenter.run_iter self (capturer, st, w).
Proof.
  intros Hitems Hdet.
  unfold Fallible.segmenter_iter, Segmenter.run_iter, Queue.get.
  rewrite Hitems. rewrite Hdet.
  cbn [mbind outcome_bind Py.bind]. destruct f as [ts pcm]. reflexivity.
Qed.

Lemma iter_idle (detector : Fallible.Detector) (self : Segmenter.t)
    (capturer : RealTimeCapturer.t) st w :
  Queue.items (q capturer) = [] ->
  Fallible.segmenter_iter detector self (capturer, st, w) =
    Segmenter.run_iter self (capturer, st, w).
Proof.
  intros Hitems. unfold Fallible.segmenter_iter, Segmenter.run_iter, Queue.get.
  rewrite Hitems. reflexivity.
Qed.

Lemma run_iter_queue (self : Segmenter.t) (capturer capturer' : RealTimeCapturer.t)
    st st' w w' :
  Segmenter.run_iter self (capturer, st, w) = Returned (capturer', st', w') ->
  sample_rate capturer' = sample_rate capturer /\
  vad capturer' = vad capturer /\
  Queue.items (q capturer') = tl (Queue.items (q capturer)).
Proof.
  unfold Segmenter.run_iter, Queue.get.
  destruct (Queue.items (q capturer)) as [| f rest] eqn:Hitems.
  - intros H. injection H as <- _ _. rewrite Hitems. repeat split.
  - destruct (Segmenter.step self capturer st f w) as [[st1 w1] | e |];
      cbn [mbind outcome_bind Py.bind mret outcome_ret]; try discriminate.
    intros H. injection H as <- _ _. repeat split.
Qed.

Lemma run_accepted (detector : Fallible.Detector) (self : Segmenter.t) (n : nat) :
  forall (capturer : RealTimeCapturer.t) st w,
    Fallible.accepts detector capturer (Queue.items (q capturer)) ->
    Fallible.segmenter_run detector n self (capturer, st, w) =
      Loops.segmenter_run n self (capturer, st, w).
Proof.
  induction n as [| n IH]; intros capturer st w Hacc; [reflexivity |].
  cbn [Fallible.segmenter_run Loops.segmenter_run].
  assert (Hiter : Fallible.segmenter_iter detector self (capturer, st, w) =
                  Segmenter.run_iter self (capturer, st, w)).
  { destruct (Queue.items (q capturer)) as [| f rest] eqn:Hitems.
    - apply iter_idle. exact Hitems.
    - apply (iter_accepted detector self capturer st w f rest Hitems).
      unfold Fallible.accepts in Hacc. inversion Hacc; subst. assumption. }
  rewrite Hiter.
  destruct (Segmenter.run_iter self (capturer, st, w)) as [[[c1 st1] w1] | e |] eqn:Hrun;
    cbn [mbind outcome_bind Py.bind]; try reflexivity.
  apply IH.
  destruct (run_iter_queue self capturer c1 st st1 w w1 Hrun) as (Hsr & Hvad & Hq).
  unfold Fallible.accepts, Segmenter.classify in Hacc |- *.
  rewrite Hq, Hsr, Hvad.
  destruct (Queue.items (q capturer)) as [| f rest]; [constructor |].
  inversion Hacc; subst. assumption.
Qed.

(** The loop ends on the first frame the detector raises on. *)
Lemma run_ends_on_raise (detector : Fallible.Detector) (self : Segmenter.t) (f : Frame)
    (post : list Frame) (e : Exc) (pre : list Frame) :
  forall (n : nat) (capturer : RealTimeCapturer.t) st
         (out_queue : Queue.t AudioSegment.t) (log : Log),
    Queue.items (q capturer) = pre ++ f :: post ->
    Fallible.accepts detector capturer pre ->
    detector (Np.tobytes (snd f)) (sample_rate capturer) = Raised e ->
    (length pre < n)%nat ->
    (Queue.maxsize out_queue <= 0 \/
     Z.of_nat (length (Queue.items out_queue) +
               length (snd (Segmenter.feed self capturer st pre)))
       <= Queue.maxsize out_queue) ->
    Fallible.segmenter_run detector n self (capturer, st, (out_queue, log)) = Raised e.
Proof.
  induction pre as [| p pre IH];
    intros n capturer st out_queue log Hitems Hacc Hrej Hn Hroom.
  - destruct n as [| n]; [simpl in Hn; lia |].
    cbn [Fallible.segmenter_run]. unfold Fallible.segmenter_iter, Queue.get.
    rewrite Hitems. cbn [app]. rewrite Hrej. reflexivity.
  - destruct n as [| n]; [simpl in Hn; lia |].
    cbn [Fallible.segmenter_run].
    unfold Fallible.accepts in Hacc. inversion Hacc as [| ? ? Hp Hpre]; subst.
    rewrite (iter_accepted detector self capturer st _ p (pre ++ f :: post) Hitems Hp).
    unfold Segmenter.run_iter, Queue.get. rewrite Hitems. cbn [app].
    unfold Segmenter.step. cbn [Segmenter.feed] in Hroom.
    destruct (Segmenter.body self capturer st p) as [st1 out] eqn:Hbody.
    destruct (Segmenter.feed self capturer st1 pre) as [st2 outs] eqn:Hfeed.
    cbn [fst snd] in Hroom.
    assert (Hlen : (length pre < n)%nat) by (simpl in Hn; lia).
    set (q' := Queue.mk (Queue.maxsize (q capturer)) (pre ++ f :: post)).
    assert (Hsame : Segmenter.feed self (set_q capturer q') st1 pre = (st2, outs))
      by (rewrite feed_set_q; exact Hfeed).
    destruct out as [[seg warning] |].
    + assert (Hfree : Queue.full out_queue = false).
      { unfold Queue.full, Queue.qsize. apply andb_false_iff.
        destruct Hroom as [Hunb | Hfit].
        - left. apply Z.ltb_ge. exact Hunb.
        - right. apply Z.leb_gt. simpl in Hfit. lia. }
      unfold Segmenter.emit, Queue.put_nowait, Queue.put. cbn [fst snd].
      rewrite Hfree. cbn [mbind outcome_bind Py.bind mret outcome_ret fst snd].
      apply IH; [reflexivity | exact Hpre | exact Hrej | exact Hlen |].
      rewrite Hsame. cbn [fst snd Queue.maxsize Queue.items].
      destruct Hroom as [Hunb | Hfit]; [left; exact Hunb | right].
      rewrite length_app. simpl in Hfit |- *. lia.
    + cbn [Segmenter.emit mbind outcome_bind Py.bind mret outcome_ret fst snd].
      apply IH; [reflexivity | exact Hpre | exact Hrej | exact Hlen |].
      rewrite Hsame. exact Hroom.
Qed.

(** X8. The segmenter loop takes the frames of the capture queue oldest
    first. When the detector returns on every queued frame, then once
    the loop has made at least as many turns as frames are queued, the
    capture queue is empty, its locals are those of the frame sequence,
    and, where the out queue has room for them, the segments handed off
    stand at its tail in hand-off order with nothing logged; further
    turns on the empty queue change nothing. When the detector raises
    on a queued frame, the loop ends with that exception once it has
    taken the frames before it. *)
Theorem segmenter_loop_feeds_in_order (detector : Fallible.Detector) (n : nat)
    (self : Segmenter.t) (capturer : RealTimeCapturer.t) (st : Segmenter.Locals)
    (out_queue : Queue.t AudioSegment.t) (log : Log) :
  let frames := Queue.items (q capturer) in
  (Fallible.accepts detector capturer frames ->
   (length frames <= n)%nat ->
   (Queue.maxsize out_queue <= 0 \/
    Z.of_nat (length (Queue.items out_queue) +
              length (snd (Segmenter.feed self capturer st frames)))
      <= Queue.maxsize out_queue) ->
   Fallible.segmenter_run detector n self (capturer, st, (out_queue, log)) =
     Returned
       (set_q capturer (Queue.mk (Queue.maxsize (q capturer)) []),
        fst (Segmenter.feed self capturer st frames),
        (Queue.mk (Queue.maxsize out_queue)
                  (Queue.items out_queue ++
                   map fst (snd (Segmenter.feed self capturer st frames))),
         log))) /\
  (forall pre f post e,
     frames = pre ++ f :: post ->
     Fallible.accepts detector capturer pre ->
     detector (Np.tobytes (snd f)) (sample_rate capturer) = Raised e ->
     (length pre < n)%nat ->
     (Queue.maxsize out_queue <= 0 \/
      Z.of_nat (length (Queue.items out_queue) +
                length (snd (Segmenter.feed self capturer st pre)))
        <= Queue.maxsize out_queue) ->
     Fallible.segmenter_run detector n self (capturer, st, (out_queue, log)) =
       Raised e).
Proof.
  intros frames. split.
  - intros Hacc Hn Hroom. rewrite (run_accepted detector self n capturer st _ Hacc).
    apply (segmenter_run_feed frames n self capturer st out_queue log eq_refl Hn Hroom).
  - intros pre f post e Hframes Hacc Hrej Hn Hroom.
    apply (run_ends_on_raise detector self f post e pre n capturer st out_queue log
             Hframes Hacc Hrej Hn Hroom).
Qed.

Lemma worker_run_idle (n : nat) sample_rate srt_writer (self : STTWorker.t)
    (in_queue : Queue.t AudioSegment.t) w :
  Queue.items in_queue = [] ->
  Loops.worker_run n sample_rate srt_writer (self, in_queue, w) =
    Returned (self, in_queue, w).
Proof.
  intros Hempty. induction n as [| n IH]; [reflexivity |].
  cbn [Loops.worker_run]. unfold STTWorker.run_iter at 1, Queue.get.
  rewrite Hempty. cbn [mbind outcome_bind Py.bind]. exact IH.
Qed.

Lemma worker_run_serve (segs : list AudioSegment.t) :
  forall (n : nat) sample_rate srt_writer (self : STTWorker.t) (m : Z) w,
    (length segs <= n)%nat ->
    Loops.worker_run n sample_rate srt_writer (self, Queue.mk m segs, w) =
      r ← STTWorker.serve self sample_rate srt_writer segs w;
      mret (fst r, Queue.mk m [], snd r).
Proof.
  induction segs as [| seg rest IH]; intros n sample_rate srt_writer self m w Hn.
  - rewrite worker_run_idle by reflexivity. reflexivity.
  - destruct n as [| n]; [simpl in Hn; lia |].
    cbn [Loops.worker_run STTWorker.serve].
    unfold STTWorker.run_iter at 1, Queue.get. cbn [Queue.items Queue.maxsize].
    destruct (STTWorker.body self sample_rate srt_writer seg w) as [[self1 w1] | e |];
      cbn [mbind outcome_bind Py.bind mret outcome_ret fst snd]; try reflexivity.
    apply IH. simpl in Hn. lia.
Qed.

(** X9. A worker takes the segments of its queue oldest first: once it
    has made at least as many turns as segments are queued, it has
    served exactly the queued segments in order and left the queue
    empty; further turns on the empty queue change nothing. *)
Theorem worker_loop_serves_in_order (n : nat) (sample_rate : Z)
    (srt_writer : SRTWriter.t) (self : STTWorker.t)
    (in_queue : Queue.t AudioSegment.t) (w : STTWorker.World) :
  (length (Queue.items in_queue) <= n)%nat ->
  Loops.worker_run n sample_rate srt_writer (self, in_queue, w) =
    r ← STTWorker.serve self sample_rate srt_writer (Queue.items in_queue) w;
    mret (fst r, Queue.mk (Queue.maxsize in_queue) [], snd r).
Proof.
  intros Hn. destruct in_queue as [m segs].
  apply (worker_run_serve segs n sample_rate srt_writer self m w Hn).
Qed.

End LoopsAndQueues.

(** ** Samples and bytes *)

Section Samples.

Import RealTimeCapturer.

Lemma sum_bounds (lo hi : Z) (row : list Z) :
  Forall (fun x => lo <= x <= hi) row ->
  Z.of_nat (length row) * lo <= Np.sum row <= Z.of_nat (length row) * hi.
Proof.
  induction 1 as [| x rest Hx _ IH]; [simpl; lia |].
  cbn [Np.sum fold_right]. fold (Np.sum rest). rewrite length_cons, Nat2Z.inj_succ. lia.
Qed.

Lemma quot_between (s n lo hi : Z) :
  0 < n -> n * lo <= s <= n * hi -> lo <= Z.quot s n <= hi.
Proof.
  intros Hn [Hlo Hhi]. destruct (Z_lt_le_dec s 0) as [Hneg | Hpos].
  - assert (Hq : Z.quot s n = - ((- s) / n)).
    { rewrite <- (Z.opp_involutive s) at 1.
      rewrite Z.quot_opp_l by lia. rewrite Z.quot_div_nonneg by lia. reflexivity. }
    rewrite Hq.
    assert (- hi <= (- s) / n) by (apply Z.div_le_lower_bound; lia).
    assert ((- s) / n <= - lo) by (apply Z.div_le_upper_bound; lia).
    lia.
  - rewrite Z.quot_div_nonneg by lia. split.
    + apply Z.div_le_lower_bound; lia.
    + apply Z.div_le_upper_bound; lia.
Qed.

Lemma mean_int16_quot (row : list Z) :
  row <> [] -> Np.mean_int16 row = Z.quot (Np.sum row) (Z.of_nat (length row)).
Proof.
  intros Hne. destruct row as [| x rest]; [contradiction |].
  unfold Np.mean_int16, int_of_float. rewrite length_cons.
  rewrite Nat2Z.inj_succ, <- Zpos_P_of_succ_nat.
  unfold Qdiv, Qinv, Qmult, inject_Z. cbn [Qnum Qden].
  rewrite Z.mul_1_r, Pos.mul_1_l. reflexivity.
Qed.

Lemma mean_int16_between (lo hi : Z) (row : list Z) :
  row <> [] -> Forall (fun x => lo <= x <= hi) row ->
  lo <= Np.mean_int16 row <= hi.
Proof.
  intros Hne Hrow. rewrite (mean_int16_quot row Hne).
  apply quot_between; [destruct row; [contradiction | simpl; lia] |].
  apply sum_bounds, Hrow.
Qed.

(** X10. Down-mixing keeps the range of the samples: for a block with
    more than one channel and room in the queue, the callback queues one
    sample per row, and every queued sample lies between any two bounds
    that hold for all samples of the block; so int16 input never
    overflows the int16 conversion. *)
Theorem mixdown_stays_in_range (self : RealTimeCapturer.t)
    (indata : list (list Z)) (status : string) (ts : Q) (log : Log) (lo hi : Z) :
  1 < channels self ->
  Queue.full (q self) = false ->
  Forall (fun row => row <> [] /\ Forall (fun x => lo <= x <= hi) row) indata ->
  exists frame,
    _callback self indata status ts log =
      Returned (set_q self (Queue.mk (Queue.maxsize (q self))
                                     (Queue.items (q self) ++ [(ts, frame)])),
                log) /\
    length frame = length indata /\
    Forall (fun x => lo <= x <= hi) frame.
Proof.
  intros Hch Hroom Hrows. exists (map Np.mean_int16 indata).
  split; [| split].
  - rewrite (callback_room self indata status ts log Hroom).
    unfold Loops.to_frame.
    replace (1 <? channels self) with true by (symmetry; apply Z.ltb_lt; exact Hch).
    reflexivity.
  - apply length_map.
  - induction Hrows as [| row rest [Hne Hrow] _ IH]; [constructor |].
    constructor; [apply mean_int16_between; assumption | exact IH].
Qed.

Lemma mixdown_stays_in_range_witness :
  exists frame,
    _callback (RealTimeCapturer.__init__ (fun _ => Demo.energy_vad) 16000 30 2 2)
              [[100; 300]; [-32768; -32767]] "" 1000 [] =
      Returned (set_q (RealTimeCapturer.__init__ (fun _ => Demo.energy_vad) 16000 30 2 2)
                      (Queue.mk 100 [(1000%Q, frame)]), []) /\
    length frame = 2%nat /\
    Forall (fun x => -32768 <= x <= 32767) frame.
Proof.
  apply (mixdown_stays_in_range
           (RealTimeCapturer.__init__ (fun _ => Demo.energy_vad) 16000 30 2 2)
           [[100; 300]; [-32768; -32767]] "" 1000 [] (-32768) 32767).
  - reflexivity.
  - reflexivity.
  - repeat constructor; try discriminate; lia.
Defined.

Lemma get_pcm_bytes_concat (seg : AudioSegment.t) :
  AudioSegment.get_pcm_bytes seg = Np.tobytes (concat (AudioSegment.samples seg)).
Proof.
  unfold AudioSegment.get_pcm_bytes. destruct (AudioSegment.samples seg); reflexivity.
Qed.

Lemma tobytes_length (a : list Z) : length (Np.tobytes a) = (2 * length a)%nat.
Proof.
  unfold Np.tobytes. induction a as [| x rest IH]; [reflexivity |].
  cbn [flat_map]. rewrite length_app, IH. simpl. lia.
Qed.

(** X11. The bytes handed to the backend are the chunks in the order
    they were appended, two bytes per sample: appending a chunk appends
    its bytes, and the byte count is twice the number of samples. *)
Theorem pcm_bytes_follow_the_chunks (seg : AudioSegment.t) (chunk : list Z) :
  AudioSegment.get_pcm_bytes (AudioSegment.append seg chunk) =
    AudioSegment.get_pcm_bytes seg ++ Np.tobytes chunk /\
  length (AudioSegment.get_pcm_bytes seg) =
    (2 * length (concat (AudioSegment.samples seg)))%nat /\
  AudioSegment.get_pcm_bytes (AudioSegment.new (AudioSegment.start_time seg)) = [].
Proof.
  split; [| split].
  - rewrite !get_pcm_bytes_concat. cbn [AudioSegment.append AudioSegment.samples].
    rewrite concat_app. simpl. rewrite app_nil_r.
    unfold Np.tobytes. apply flat_map_app.
  - rewrite get_pcm_bytes_concat. apply tobytes_length.
  - reflexivity.
Qed.

End Samples.

(** ** STT worker, further *)

Section WorkerMore.

Import STTWorker.

(** What one segment can do to a worker that comes back from it. *)
Lemma body_returned self sample_rate srt_writer seg w self1 w1 :
  body self sample_rate srt_writer seg w = Returned (self1, w1) ->
  (self1 = self /\ ui_calls w1 = ui_calls w /\ fs w1 = fs w) \/
  (exists text,
     text <> ""%string /\
     self1 = mk (stt self) (seq self + 1) /\
     ui_calls w1 = ui_calls w ++ [text] /\
     fs w1 = SRTWriter.write_entry srt_writer (seq self)
               (AudioSegment.start_time seg)
               (or_float (AudioSegment.end_time seg) (AudioSegment.start_time seg))
               text (fs w)).
Proof.
  unfold body.
  destruct (stt self (AudioSegment.get_pcm_bytes seg) sample_rate) as [[text conf] | e |];
    cbn [mbind outcome_bind Py.bind].
  - destruct text as [| c text'].
    + cbn [str_truthy negb]. intros H. injection H as <- <-. left. repeat split.
    + cbn [str_truthy negb]. intros H. injection H as <- <-. right.
      exists (String c text'). repeat split. discriminate.
  - cbn [str_truthy negb]. intros H. injection H as <- <-. left. repeat split.
  - discriminate.
Qed.



(** With sinks that always return, the body is [STTWorker.body]. *)
Lemma worker_body_reliable self sample_rate srt_writer seg w :
  Fallible.worker_body Fallible.reliable self sample_rate srt_writer seg w =
    body self sample_rate srt_writer seg w.
Proof.
  unfold Fallible.worker_body, body.
  destruct (stt self (AudioSegment.get_pcm_bytes seg) sample_rate) as [[text conf] | e' |];
    cbn [mbind outcome_bind Py.bind]; reflexivity.
Qed.



Lemma consecutive_cons (first : Z) (n : nat) :
  Shape.consecutive first (S n) = first :: Shape.consecutive (first + 1) n.
Proof.
  unfold Shape.consecutive.
  change (List.seq 0 (S n)) with (0%nat :: List.seq 1 n). cbn [map].
  replace (first + Z.of_nat 0) with first by lia. f_equal.
  rewrite <- seq_shift, map_map. apply map_ext. intros k. lia.
Qed.

Lemma serve_accounting (segs : list AudioSegment.t) :
  forall (self self' : STTWorker.t) (sample_rate : Z) (srt_writer : SRTWriter.t)
         (w w' : World) (old : string),
    fs w !! SRTWriter.filename srt_writer = Some old ->
    serve self sample_rate srt_writer segs w = Returned (self', w') ->
    exists entries : list Shape.Entry,
      ui_calls w' = ui_calls w ++ map Shape.entry_caption entries /\
      map Shape.entry_index entries = Shape.consecutive (seq self) (length entries) /\
      seq self' = seq self + Z.of_nat (length entries) /\
      Forall (fun e => Shape.entry_caption e <> ""%string) entries /\
      fs w' !! SRTWriter.filename srt_writer = Some (Shape.appended old entries) /\
      (forall other, other <> SRTWriter.filename srt_writer ->
                     fs w' !! other = fs w !! other).
Proof.
  induction segs as [| seg rest IH];
    intros self self' sample_rate srt_writer w w' old Hold Hserve.
  - cbn [serve] in Hserve. injection Hserve as <- <-.
    exists []. simpl. rewrite app_nil_r, Z.add_0_r.
    repeat split; [constructor | exact Hold].
  - cbn [serve] in Hserve.
    destruct (body self sample_rate srt_writer seg w) as [[self1 w1] | e |] eqn:Hb;
      cbn [mbind outcome_bind Py.bind fst snd] in Hserve; try discriminate.
    apply body_returned in Hb.
    destruct Hb as [(-> & Hui & Hfs) | (text & Htext & -> & Hui & Hfs)].
    + destruct (IH self self' sample_rate srt_writer w1 w' old) as
        (entries & H1 & H2 & H3 & H4 & H5 & H6);
        [rewrite Hfs; exact Hold | exact Hserve |].
      exists entries. rewrite <- Hui, <- Hfs. repeat split; assumption.
    + set (e := (seq self, AudioSegment.start_time seg,
                 or_float (AudioSegment.end_time seg) (AudioSegment.start_time seg),
                 text) : Shape.Entry).
      destruct (IH (mk (stt self) (seq self + 1)) self' sample_rate srt_writer w1 w'
                  (old +:+ SRTWriter.entry_text (seq self) (AudioSegment.start_time seg)
                     (or_float (AudioSegment.end_time seg) (AudioSegment.start_time seg))
                     text)) as (entries & H1 & H2 & H3 & H4 & H5 & H6);
        [| exact Hserve |].
      { rewrite Hfs. unfold SRTWriter.write_entry. rewrite Hold. simpl.
        apply lookup_insert_eq. }
      exists (e :: entries). cbn [length map STTWorker.seq] in *.
      split; [rewrite H1, Hui, <- app_assoc; reflexivity |].
      split; [rewrite consecutive_cons, H2; reflexivity |].
      split; [rewrite H3, Nat2Z.inj_succ; lia |].
      split; [constructor; [exact Htext | exact H4] |].
      split; [exact H5 |].
      intros other Hne. rewrite (H6 other Hne), Hfs.
      unfold SRTWriter.write_entry. apply lookup_insert_ne. congruence.
Qed.

(** X13. A worker numbers what it writes: when it comes back from a
    sequence of segments, the captions it sent and the entries it
    appended to the subtitle file are the same in number and order, the
    entries carry consecutive indices starting at the worker's sequence
    number, which has advanced by their count, no caption is empty, what
    the file held before is still its beginning, and no other file
    changed. *)
Theorem worker_numbers_its_entries (segs : list AudioSegment.t)
    (self self' : STTWorker.t) (sample_rate : Z) (srt_writer : SRTWriter.t)
    (w w' : World) (old : string) :
  fs w !! SRTWriter.filename srt_writer = Some old ->
  serve self sample_rate srt_writer segs w = Returned (self', w') ->
  exists entries : list Shape.Entry,
    ui_calls w' = ui_calls w ++ map Shape.entry_caption entries /\
    map Shape.entry_index entries = Shape.consecutive (seq self) (length entries) /\
    seq self' = seq self + Z.of_nat (length entries) /\
    Forall (fun e => Shape.entry_caption e <> ""%string) entries /\
    fs w' !! SRTWriter.filename srt_writer = Some (Shape.appended old entries) /\
    (forall other, other <> SRTWriter.filename srt_writer ->
                   fs w' !! other = fs w !! other).
Proof. apply serve_accounting. Qed.

Lemma worker_numbers_its_entries_witness :
  exists entries : list Shape.Entry,
    ["hello"%string; "hello"%string] = [] ++ map Shape.entry_caption entries /\
    map Shape.entry_index entries = Shape.consecutive 1 (length entries) /\
    3 = 1 + Z.of_nat (length entries).
Proof.
  destruct (worker_numbers_its_entries [Demo.spoken; Demo.spoken]
              (STTWorker.__init__ Demo.echo_backend)
              (STTWorker.mk Demo.echo_backend 3) 16000 (SRTWriter.mk "captions.srt")
              (mkW [] (<["captions.srt"%string := ""%string]> ∅) [])
              (mkW ["hello"%string; "hello"%string]
                   (<["captions.srt"%string :=
                        (SRTWriter.entry_text 1 1000 1001 "hello" +:+
                         SRTWriter.entry_text 2 1000 1001 "hello")%string]> ∅) [])
              ""%string)
    as (entries & H1 & H2 & H3 & _).
  - apply lookup_insert_eq.
  - cbn [serve]. unfold body. simpl. unfold SRTWriter.write_entry. simpl.
    rewrite !lookup_insert_eq. simpl. rewrite !insert_insert_eq. reflexivity.
  - exists entries. repeat split; assumption.
Defined.

End WorkerMore.

(** ** Worker pool: sequence numbers *)

Section WorkerPool.

Import STTWorker.

(** X14. Sequence numbers are per worker: two freshly built workers on
    the same subtitle file, each getting a text from its backend, both
    write their entry under index 1. *)
Theorem fresh_workers_both_write_index_1 (b1 b2 : STTBackend) (sample_rate : Z)
    (srt_writer : SRTWriter.t) (s1 s2 : AudioSegment.t) (w : World)
    (t1 t2 : string) (c1 c2 : Q) (old : string) :
  fs w !! SRTWriter.filename srt_writer = Some old ->
  b1 (AudioSegment.get_pcm_bytes s1) sample_rate = Returned (t1, c1) ->
  b2 (AudioSegment.get_pcm_bytes s2) sample_rate = Returned (t2, c2) ->
  t1 <> ""%string -> t2 <> ""%string ->
  exists w1 w2,
    serve (STTWorker.__init__ b1) sample_rate srt_writer [s1] w =
      Returned (mk b1 2, w1) /\
    serve (STTWorker.__init__ b2) sample_rate srt_writer [s2] w1 =
      Returned (mk b2 2, w2) /\
    fs w2 !! SRTWriter.filename srt_writer =
      Some (Shape.appended old
              [(1, AudioSegment.start_time s1,
                or_float (AudioSegment.end_time s1) (AudioSegment.start_time s1), t1);
               (1, AudioSegment.start_time s2,
                or_float (AudioSegment.end_time s2) (AudioSegment.start_time s2), t2)]).
Proof.
  intros Hold H1 H2 Ht1 Ht2.
  assert (Htr : forall t, t <> ""%string -> str_truthy t = true)
    by (intros [| c r] H; [contradiction | reflexivity]).
  eexists. eexists. split; [| split].
  - cbn [serve]. unfold body, STTWorker.__init__. cbn [stt seq]. rewrite H1.
    cbn [mbind outcome_bind Py.bind]. rewrite (Htr t1 Ht1).
    cbn [mret outcome_ret mbind outcome_bind Py.bind fst snd]. reflexivity.
  - cbn [serve]. unfold body, STTWorker.__init__. cbn [stt seq]. rewrite H2.
    cbn [mbind outcome_bind Py.bind]. rewrite (Htr t2 Ht2).
    cbn [mret outcome_ret mbind outcome_bind Py.bind fst snd]. reflexivity.
  - cbn [fs]. unfold SRTWriter.write_entry.
    rewrite lookup_insert_eq. rewrite Hold. cbn [default]. rewrite lookup_insert_eq.
    reflexivity.
Qed.

Lemma fresh_workers_both_write_index_1_witness :
  exists w1 w2,
    serve (STTWorker.__init__ Demo.echo_backend) 16000 (SRTWriter.mk "captions.srt")
          [Demo.spoken] (mkW [] (<["captions.srt"%string := ""%string]> ∅) []) =
      Returned (mk Demo.echo_backend 2, w1) /\
    serve (STTWorker.__init__ Demo.echo_backend) 16000 (SRTWriter.mk "captions.srt")
          [Demo.spoken] w1 = Returned (mk Demo.echo_backend 2, w2) /\
    fs w2 !! "captions.srt"%string =
      Some (Shape.appended ""
              [(1, 1000%Q, (1001 # 1)%Q, "hello"%string);
               (1, 1000%Q, (1001 # 1)%Q, "hello"%string)]).
Proof.
  apply (fresh_workers_both_write_index_1 Demo.echo_backend Demo.echo_backend 16000
           (SRTWriter.mk "captions.srt") Demo.spoken Demo.spoken
           (mkW [] (<["captions.srt"%string := ""%string]> ∅) [])
           "hello" "hello" 1 1 "").
  - apply lookup_insert_eq.
  - reflexivity.
  - reflexivity.
  - discriminate.
  - discriminate.
Defined.

End WorkerPool.

(** ** VOSK backend: feeding the recognizer *)

Section Vosk.

Import VoskBackend.

Lemma pieces_from_concat (pcm_bytes : list Byte.byte) (fuel : nat) :
  forall pos,
    (length pcm_bytes - pos <= fuel)%nat ->
    concat (pieces_from fuel pos pcm_bytes) = drop pos pcm_bytes.
Proof.
  induction fuel as [| fuel IH]; intros pos Hfuel.
  - simpl. symmetry. apply drop_ge. lia.
  - cbn [pieces_from]. destruct (pos <? length pcm_bytes)%nat eqn:Hpos.
    + apply Nat.ltb_lt in Hpos. cbn [concat].
      rewrite IH by (unfold chunk_size; lia).
      rewrite <- drop_drop. apply take_drop.
    + apply Nat.ltb_ge in Hpos. simpl. symmetry. apply drop_ge. lia.
Qed.

Lemma pieces_from_sizes (pcm_bytes : list Byte.byte) (fuel : nat) :
  forall pos,
    Forall (fun p => (1 <= length p <= 4000)%nat) (pieces_from fuel pos pcm_bytes).
Proof.
  induction fuel as [| fuel IH]; intros pos; [constructor |].
  cbn [pieces_from]. destruct (pos <? length pcm_bytes)%nat eqn:Hpos; [| constructor].
  apply Nat.ltb_lt in Hpos. constructor; [| apply IH].
  rewrite length_take, length_drop. unfold chunk_size. lia.
Qed.

Lemma pieces_from_count (pcm_bytes : list Byte.byte) (fuel : nat) :
  forall pos,
    (length pcm_bytes - pos <= fuel)%nat ->
    length (pieces_from fuel pos pcm_bytes) =
      ((length pcm_bytes - pos + 3999) / 4000)%nat.
Proof.
  induction fuel as [| fuel IH]; intros pos Hfuel.
  - replace (length pcm_bytes - pos)%nat with 0%nat by lia. reflexivity.
  - cbn [pieces_from]. destruct (pos <? length pcm_bytes)%nat eqn:Hpos.
    + apply Nat.ltb_lt in Hpos. cbn [length].
      rewrite IH by (unfold chunk_size; lia). unfold chunk_size.
      destruct (le_lt_dec (length pcm_bytes - pos) 4000) as [Hle | Hgt].
      * replace (length pcm_bytes - (pos + 4000))%nat with 0%nat by lia.
        change ((0 + 3999) / 4000)%nat with 0%nat.
        apply (Nat.div_unique _ 4000 1 (length pcm_bytes - pos - 1)); lia.
      * replace (length pcm_bytes - pos + 3999)%nat
          with ((length pcm_bytes - (pos + 4000) + 3999) + 1 * 4000)%nat by lia.
        rewrite Nat.div_add by lia. lia.
    + apply Nat.ltb_ge in Hpos.
      replace (length pcm_bytes - pos)%nat with 0%nat by lia. reflexivity.
Qed.

Lemma pieces_from_enough (pcm_bytes : list Byte.byte) (fuel : nat) :
  forall fuel' pos,
    (length pcm_bytes - pos <= fuel)%nat ->
    (length pcm_bytes - pos <= fuel')%nat ->
    pieces_from fuel pos pcm_bytes = pieces_from fuel' pos pcm_bytes.
Proof.
  induction fuel as [| fuel IH]; intros fuel' pos Hf Hf'.
  - destruct fuel' as [| fuel']; [reflexivity |].
    cbn [pieces_from].
    replace (pos <? length pcm_bytes)%nat with false
      by (symmetry; apply Nat.ltb_ge; lia). reflexivity.
  - cbn [pieces_from]. destruct (pos <? length pcm_bytes)%nat eqn:Hpos.
    + apply Nat.ltb_lt in Hpos. destruct fuel' as [| fuel']; [lia |].
      cbn [pieces_from].
      replace (pos <? length pcm_bytes)%nat with true
        by (symmetry; apply Nat.ltb_lt; lia).
      f_equal. apply IH; unfold chunk_size; lia.
    + destruct fuel' as [| fuel']; [reflexivity |].
      cbn [pieces_from]. rewrite Hpos. reflexivity.
Qed.

(** X15. The recognizer is fed the whole input and nothing else: the
    pieces, in order, make up the PCM bytes; each piece holds between 1
    and 4000 bytes; there are ceil(len / 4000) of them (none for empty
    input); and the loop has ended by its own test, any larger number
    of turns gives the same pieces. *)
Theorem recognizer_is_fed_the_whole_input (pcm_bytes : list Byte.byte) :
  concat (pieces pcm_bytes) = pcm_bytes /\
  Forall (fun p => (1 <= length p <= 4000)%nat) (pieces pcm_bytes) /\
  length (pieces pcm_bytes) = ((length pcm_bytes + 3999) / 4000)%nat /\
  forall fuel, (length pcm_bytes <= fuel)%nat ->
               pieces_from fuel 0 pcm_bytes = pieces pcm_bytes.
Proof.
  unfold pieces. split; [| split; [| split]].
  - rewrite pieces_from_concat by lia. apply drop_0.
  - apply pieces_from_sizes.
  - rewrite pieces_from_count by lia. rewrite Nat.sub_0_r. reflexivity.
  - intros fuel Hfuel. apply pieces_from_enough; lia.
Qed.

End Vosk.

(** ** Trimmed text: the VOSK result and the overlay *)

Section Trimmed.

Import OverlayTrace.

Lemma lstrip_blank (s : string) : Str.lstrip s = EmptyString <-> blank s = true.
Proof.
  induction s as [| c r IH]; [split; reflexivity |].
  cbn [Str.lstrip blank]. destruct (Str.isspace c); cbn [andb].
  - exact IH.
  - split; discriminate.
Qed.

Lemma rstrip_blank (s : string) : Str.rstrip s = EmptyString <-> blank s = true.
Proof.
  induction s as [| c r IH]; [split; reflexivity |].
  cbn [Str.rstrip blank]. destruct (Str.rstrip r) as [| c' r'].
  - destruct (Str.isspace c); cbn [andb].
    + split; [intros _; apply IH; reflexivity | reflexivity].
    + split; discriminate.
  - split; [discriminate |]. intros H. apply andb_prop in H. destruct H as [_ H].
    apply IH in H. discriminate.
Qed.

Lemma lstrip_head (s : string) c r :
  Str.lstrip s = String c r -> Str.isspace c = false.
Proof.
  induction s as [| c0 r0 IH]; [discriminate |].
  cbn [Str.lstrip]. destruct (Str.isspace c0) eqn:Hc0; [exact IH |].
  intros H. injection H as <- _. exact Hc0.
Qed.

Lemma rstrip_keeps_head c r :
  Str.isspace c = false -> Str.rstrip (String c r) = String c (Str.rstrip r).
Proof.
  intros Hc. cbn [Str.rstrip]. destruct (Str.rstrip r); [rewrite Hc |]; reflexivity.
Qed.

Lemma rstrip_idempotent (s : string) : Str.rstrip (Str.rstrip s) = Str.rstrip s.
Proof.
  induction s as [| c r IH]; [reflexivity |].
  cbn [Str.rstrip]. destruct (Str.rstrip r) as [| c' r'] eqn:Hr.
  - destruct (Str.isspace c) eqn:Hc; [reflexivity |].
    cbn [Str.rstrip]. rewrite Hc. reflexivity.
  - cbn [Str.rstrip] in IH |- *. cbn [Str.rstrip]. rewrite IH. reflexivity.
Qed.

Lemma strip_blank (s : string) : Str.strip s = EmptyString <-> blank s = true.
Proof.
  unfold Str.strip. split.
  - intros H. apply rstrip_blank in H.
    destruct (Str.lstrip s) as [| c r] eqn:Hl; [apply lstrip_blank, Hl |].
    apply lstrip_head in Hl. cbn [blank] in H. rewrite Hl in H. discriminate.
  - intros H. apply lstrip_blank in H. rewrite H. reflexivity.
Qed.

Lemma strip_idempotent (s : string) : Str.strip (Str.strip s) = Str.strip s.
Proof.
  unfold Str.strip. destruct (Str.lstrip s) as [| c r] eqn:Hl; [reflexivity |].
  apply lstrip_head in Hl. rewrite (rstrip_keeps_head c r Hl).
  cbn [Str.lstrip]. rewrite Hl. rewrite (rstrip_keeps_head c _ Hl).
  rewrite rstrip_idempotent. reflexivity.
Qed.

(** X16. [transcribe] never raises; a result that cannot be read as
    JSON counts as no text; and the text it returns is trimmed (stripping
    it again changes nothing) with a nonnegative confidence. *)
Theorem vosk_text_is_trimmed (self : VoskBackend.t) (pcm_bytes : list Byte.byte)
    (sample_rate : Z) :
  (forall e, VoskBackend.transcribe self pcm_bytes sample_rate <> Raised e) /\
  (forall e,
      VoskBackend.json_text self
        (VoskBackend.final_result self sample_rate (VoskBackend.pieces pcm_bytes)) =
        Raised e ->
      VoskBackend.transcribe self pcm_bytes sample_rate = Returned (""%string, 0%Q)) /\
  (forall text conf,
      VoskBackend.transcribe self pcm_bytes sample_rate = Returned (text, conf) ->
      Str.strip text = text /\ (0 <= conf)%Q).
Proof.
  unfold VoskBackend.transcribe.
  destruct (VoskBackend.json_text self _) as [raw | e' |].
  - split; [discriminate |]. split; [discriminate |].
    intros text conf H. injection H as <- <-.
    split; [apply strip_idempotent |].
    apply Qle_shift_div_l.
    + change 0%Q with (inject_Z 0). rewrite <- Zlt_Qlt. lia.
    + rewrite Qmult_0_l. change 0%Q with (inject_Z 0). rewrite <- Zle_Qle. lia.
  - split; [discriminate |]. split; [reflexivity |].
    intros text conf H. injection H as <- <-. split; [reflexivity | apply Qle_refl].
  - split; [discriminate |]. split; discriminate.
Qed.

(** X17. A worker on the VOSK backend drops what the recognizer did not
    hear: when the recognized text is empty or all white space, or the
    result cannot be read, the segment leaves the worker, the caption
    sink, the subtitle file and the log as they were. *)
Theorem blank_recognition_leaves_no_trace (vosk : VoskBackend.t) (seq : Z)
    (sample_rate : Z) (srt_writer : SRTWriter.t) (seg : AudioSegment.t)
    (w : STTWorker.World) :
  let self := STTWorker.mk (VoskBackend.transcribe vosk) seq in
  let res := VoskBackend.final_result vosk sample_rate
               (VoskBackend.pieces (AudioSegment.get_pcm_bytes seg)) in
  ((exists raw, VoskBackend.json_text vosk res = Returned raw /\ blank raw = true) \/
   (exists e, VoskBackend.json_text vosk res = Raised e)) ->
  STTWorker.body self sample_rate srt_writer seg w = Returned (self, w).
Proof.
  intros self res Hblank.
  unfold STTWorker.body, self. cbn [STTWorker.stt]. unfold VoskBackend.transcribe.
  fold res. destruct Hblank as [(raw & -> & Hraw) | (e & ->)].
  - apply strip_blank in Hraw. rewrite Hraw.
    cbn [mbind outcome_bind Py.bind str_truthy mret outcome_ret].
    destruct w; reflexivity.
  - cbn [mbind outcome_bind Py.bind str_truthy mret outcome_ret].
    destruct w; reflexivity.
Qed.

Lemma blank_recognition_leaves_no_trace_witness :
  STTWorker.body (STTWorker.mk (VoskBackend.transcribe Toy.vosk) 1) 16000
    (SRTWriter.mk "captions.srt") (AudioSegment.new 1000) (STTWorker.mkW [] ∅ []) =
  Returned (STTWorker.mk (VoskBackend.transcribe Toy.vosk) 1, STTWorker.mkW [] ∅ []).
Proof.
  apply (blank_recognition_leaves_no_trace Toy.vosk 1 16000 (SRTWriter.mk "captions.srt")
           (AudioSegment.new 1000) (STTWorker.mkW [] ∅ [])).
  right. eexists. reflexivity.
Defined.

Lemma vosk_text_is_trimmed_witness :
  VoskBackend.transcribe Toy.vosk (AudioSegment.get_pcm_bytes Demo.spoken) 16000 =
    Returned ("hello"%string, (5 # 8)%Q) /\
  Str.strip "hello" = "hello"%string.
Proof.
  split; [reflexivity |].
  destruct (vosk_text_is_trimmed Toy.vosk (AudioSegment.get_pcm_bytes Demo.spoken) 16000)
    as (_ & _ & Htrim).
  apply (Htrim "hello"%string (5 # 8)%Q). reflexivity.
Defined.

Lemma react_keeps_well_shown (screen_w screen_h : Z)
    (label_size : string -> Z -> Z * Z) (t0 : Q) (self : CaptionOverlay.t) (ev : Event) :
  well_shown screen_w screen_h label_size t0 self ->
  well_shown screen_w screen_h label_size t0
             (react (screen_w, screen_h) label_size self ev).
Proof.
  intros (Ht & Hlast & Htrim & Hvis). destruct ev as [text |].
  - cbn [react]. unfold CaptionOverlay._set_caption.
    destruct (Str.strip text) as [| c r] eqn:Hs; cbn [str_truthy negb].
    + split; [exact Ht |]. split; [exact Hlast |]. split; [exact Htrim | exact Hvis].
    + unfold CaptionOverlay.adjust_size_and_position.
      cbn [CaptionOverlay.label_text CaptionOverlay.timeout CaptionOverlay._last_text].
      destruct (label_size (String c r) _) as [w h] eqn:Hsize.
      unfold well_shown.
      cbn [CaptionOverlay.label_text CaptionOverlay.timeout CaptionOverlay._last_text
           CaptionOverlay.geometry CaptionOverlay.visible CaptionOverlay.hide_timer].
      split; [exact Ht |]. split; [reflexivity |].
      split; [rewrite <- Hs; apply strip_idempotent |].
      intros _. split; [discriminate |]. split; [rewrite Ht; reflexivity |].
      exists ((screen_w - w) / 2), (screen_h - h - 120), w, h.
      split; [reflexivity |]. split; [symmetry; exact Hsize |].
      split; [lia |].
      pose proof (Z.div_mod (screen_w - w) 2 ltac:(lia)).
      pose proof (Z.mod_pos_bound (screen_w - w) 2 ltac:(lia)). lia.
  - cbn [react]. unfold CaptionOverlay.hide_caption, well_shown.
    cbn [CaptionOverlay.label_text CaptionOverlay.timeout CaptionOverlay._last_text
         CaptionOverlay.geometry CaptionOverlay.visible CaptionOverlay.hide_timer].
    split; [exact Ht |]. split; [exact Hlast |]. split; [exact Htrim | discriminate].
Qed.

Lemma run_keeps_well_shown (screen_w screen_h : Z)
    (label_size : string -> Z -> Z * Z) (t0 : Q) (events : list Event) :
  forall self,
    well_shown screen_w screen_h label_size t0 self ->
    well_shown screen_w screen_h label_size t0
               (run (screen_w, screen_h) label_size self events).
Proof.
  unfold run. induction events as [| ev rest IH]; intros self Hgood; [exact Hgood |].
  cbn [fold_left]. apply IH, react_keeps_well_shown, Hgood.
Qed.

(** X18. Whatever captions and timer events reach a new overlay: the
    label text is trimmed; while the overlay is shown the label is not
    empty, the hide timer was started with [int(timeout * 1000)] ms, and
    the window has the size Qt gave the label, sits 120 pixels above
    the bottom of the screen and is centred to the pixel; and a caption
    that is empty or all white space changes nothing. *)
Theorem overlay_shows_trimmed_centred_captions (screen_w screen_h : Z)
    (label_size : string -> Z -> Z * Z) (timeout : Q) (events : list Event) :
  let self := run (screen_w, screen_h) label_size
                  (CaptionOverlay.__init__ timeout) events in
  Str.strip (CaptionOverlay.label_text self) = CaptionOverlay.label_text self /\
  (CaptionOverlay.visible self = true ->
   CaptionOverlay.label_text self <> ""%string /\
   CaptionOverlay.hide_timer self = Some (int_of_float (float_mul timeout 1000)) /\
   exists x y w h,
     CaptionOverlay.geometry self = (x, y, w, h) /\
     (w, h) = label_size (CaptionOverlay.label_text self)
                         (int_of_float (float_mul (inject_Z screen_w) (to_double (6 # 10)))) /\
     y + h = screen_h - 120 /\
     0 <= (screen_w - w) - 2 * x <= 1) /\
  (forall text, blank text = true ->
     CaptionOverlay._set_caption (screen_w, screen_h) label_size self text = self).
Proof.
  intros self.
  assert (Hgood : well_shown screen_w screen_h label_size timeout self).
  { apply run_keeps_well_shown. unfold well_shown. simpl.
    split; [reflexivity |]. split; [reflexivity |]. split; [reflexivity | discriminate]. }
  destruct Hgood as (_ & _ & Htrim & Hvis).
  split; [exact Htrim |]. split; [exact Hvis |].
  intros text Hblank. unfold CaptionOverlay._set_caption.
  apply strip_blank in Hblank. rewrite Hblank. reflexivity.
Qed.

Lemma overlay_shows_trimmed_centred_captions_witness :
  let self := run (1920, 1080) Toy.label_size (CaptionOverlay.__init__ (35 # 10))
                  [Caption "  hello "; TimerFires; Caption "hi"; Caption "   "] in
  CaptionOverlay.visible self = true /\
  CaptionOverlay.label_text self = "hi"%string /\
  CaptionOverlay.hide_timer self = Some 3500 /\
  CaptionOverlay.geometry self = (952, 920, 16, 40).
Proof.
  cbv zeta.
  destruct (overlay_shows_trimmed_centred_captions 1920 1080 Toy.label_size (35 # 10)
              [Caption "  hello "; TimerFires; Caption "hi"; Caption "   "])
    as (_ & Hvis & _).
  destruct (Hvis eq_refl) as (_ & Htimer & _).
  split; [reflexivity |]. split; [reflexivity |].
  split; [exact Htimer | reflexivity].
Defined.

End Trimmed.

(** ** Segments and speech *)

Section SegmentsAndSpeech.

Import RealTimeCapturer Segmenter.

Variable self : Segmenter.t.
Variable capturer : RealTimeCapturer.t.

Lemma body_spends_speech (st : Locals) (f : Frame) :
  (length (option_list (snd (body self capturer st f))) +
   Shape.open_count (fst (body self capturer st f)) <=
   Shape.speech_count capturer [f] + Shape.open_count st)%nat.
Proof.
  destruct f as [ts pcm]. unfold body, Shape.open_count, Shape.speech_count.
  cbn [List.filter snd].
  destruct (cur_segment st) as [seg |] eqn:Hcur.
  - destruct (silence_end self _).
    + cbn [fst snd cur_segment initial]. destruct (float_ge _ _); simpl; lia.
    + destruct (timed_out self ts _).
      * simpl. lia.
      * cbn [fst snd]. unfold extend.
        destruct (classify capturer pcm); simpl; lia.
  - destruct (classify capturer pcm) eqn:Hc; cbn [fst snd]; [simpl; lia |].
    rewrite Hcur. simpl. lia.
Qed.

Lemma feed_spends_speech (frames : list Frame) :
  forall st,
    (length (snd (feed self capturer st frames)) +
     Shape.open_count (fst (feed self capturer st frames)) <=
     Shape.speech_count capturer frames + Shape.open_count st)%nat.
Proof.
  induction frames as [| f rest IH]; intros st; [simpl; lia |].
  pose proof (body_spends_speech st f) as Hb.
  cbn [feed]. destruct (body self capturer st f) as [st1 out].
  cbn [fst snd] in Hb. specialize (IH st1).
  destruct (feed self capturer st1 rest) as [st2 outs].
  cbn [fst snd] in IH |- *. rewrite length_app.
  unfold Shape.speech_count in *. cbn [List.filter] in Hb |- *.
  destruct (classify capturer (snd f)); cbn [length] in Hb |- *; lia.
Qed.

(** X19. Segments come from speech only: from idle, a frame sequence
    never hands off more segments than it has speech frames, an open
    segment counted in; so silence alone hands nothing off and leaves
    the segmenter idle. *)
Theorem no_more_segments_than_speech_frames (frames : list Frame) :
  (length (snd (feed self capturer initial frames)) +
   Shape.open_count (fst (feed self capturer initial frames)) <=
   Shape.speech_count capturer frames)%nat /\
  (Forall (fun f => classify capturer (snd f) = false) frames ->
   feed self capturer initial frames = (initial, [])).
Proof.
  split.
  - pose proof (feed_spends_speech frames initial) as H.
    unfold Shape.open_count at 2 in H. simpl in H. lia.
  - intros Hsil. induction Hsil as [| [ts pcm] rest Hf _ IH]; [reflexivity |].
    cbn [feed]. rewrite (body_idle_silence self capturer initial ts pcm eq_refl Hf).
    rewrite IH. reflexivity.
Qed.

End SegmentsAndSpeech.

Lemma no_more_segments_than_speech_frames_witness :
  Segmenter.feed Demo.segmenter Demo.capturer Segmenter.initial
       (Demo.frames_at 1000 (3 # 100) 5 Demo.silent) = (Segmenter.initial, []).
Proof.
  destruct (no_more_segments_than_speech_frames Demo.segmenter Demo.capturer
              (Demo.frames_at 1000 (3 # 100) 5 Demo.silent)) as [_ Hsil].
  apply Hsil. unfold Demo.frames_at. cbn [List.seq map].
  repeat (constructor; [reflexivity |]). constructor.
Defined.


(** ** From the sound device to the segmenter *)

Section CaptureToSegments.

Import RealTimeCapturer.

(** X20. What the sound device delivers is segmented in the order it
    was captured: after up to 100 blocks were captured by a new
    capturer, a segmenter loop whose detector returns on each of the
    captured frames and that makes at least as many turns (with room in
    the out queue for what it hands off) ends with the locals and the
    hand-offs of the captured frames taken in capture order, and with
    the capture queue empty. *)
Theorem captured_blocks_are_segmented_in_order (detector : Fallible.Detector)
    (webrtcvad_Vad : Z -> Vad)
    (sample_rate block_duration_ms vad_aggressiveness channels : Z)
    (blocks : list Loops.Block) (log : Log) (n : nat) (seg : Segmenter.t)
    (out_queue : Queue.t AudioSegment.t) :
  let cap0 := RealTimeCapturer.__init__ webrtcvad_Vad sample_rate block_duration_ms
                vad_aggressiveness channels in
  let frames := map (Loops.to_frame cap0) blocks in
  Fallible.accepts detector cap0 frames ->
  (length blocks <= 100)%nat ->
  (length blocks <= n)%nat ->
  (Queue.maxsize out_queue <= 0 \/
   Z.of_nat (length (Queue.items out_queue) +
             length (snd (Segmenter.feed seg cap0 Segmenter.initial frames)))
     <= Queue.maxsize out_queue) ->
  (r ← Loops.callbacks cap0 blocks log;
   Fallible.segmenter_run detector n seg
     (fst r, Segmenter.initial, (out_queue, snd r))) =
    Returned
      (cap0,
       fst (Segmenter.feed seg cap0 Segmenter.initial frames),
       (Queue.mk (Queue.maxsize out_queue)
                 (Queue.items out_queue ++
                  map fst (snd (Segmenter.feed seg cap0 Segmenter.initial frames))),
        log)).
Proof.
  intros cap0 frames Hacc Hcap Hn Hroom.
  rewrite (callbacks_bounded blocks cap0 log) by (simpl; lia).
  cbn [mbind outcome_bind Py.bind fst snd].
  replace (length blocks - _)%nat with 0%nat by (simpl; lia).
  cbn [repeat]. rewrite app_nil_r.
  replace (take _ (map (Loops.to_frame cap0) blocks)) with frames
    by (symmetry; apply take_ge; unfold frames; rewrite length_map; simpl; lia).
  cbn [q cap0 RealTimeCapturer.__init__ Queue.new Queue.items Queue.maxsize app].
  set (cap1 := set_q _ _).
  rewrite (run_accepted detector seg n cap1 Segmenter.initial _) by exact Hacc.
  rewrite (segmenter_run_feed frames n seg cap1 Segmenter.initial out_queue log);
    [| reflexivity | unfold frames; rewrite length_map; exact Hn |].
  - unfold cap1. rewrite feed_set_q. reflexivity.
  - unfold cap1. rewrite feed_set_q. exact Hroom.
Qed.

End CaptureToSegments.

(** ** Worked instances of the further properties *)

Section MoreInstances.

Import RealTimeCapturer.

Lemma init_counts_whole_frames_witness :
  ceil (to_double (inject_Z 250 / inject_Z 30)) = 9 /\
  ceil (to_double (inject_Z 700 / inject_Z 30)) = 24 /\
  exists s,
    Segmenter.__init__ Demo.capturer 250 700 10 = Returned s /\
    Segmenter.segment_timeout_s s = 10 /\
    250 <= Segmenter.min_frames s * 30.
Proof.
  destruct (init_counts_whole_frames Demo.capturer 250 700 10) as [_ Hpos].
  destruct Hpos as (Hc1 & Hc2 & s & Hs & Hto & (_ & Hcover & _) & _);
    [split; reflexivity | reflexivity | reflexivity |].
  split; [etransitivity; [exact Hc1 | reflexivity] |].
  split; [etransitivity; [exact Hc2 | reflexivity] |].
  exists s. split; [exact Hs |]. split; [exact Hto | exact Hcover].
Defined.


Lemma silence_ended_segment_keeps_the_pause_witness :
  exists seg,
    In (seg, "Out queue full; dropping segment."%string)
       (snd (Segmenter.feed Demo.segmenter Demo.capturer Segmenter.initial
               (Demo.frames_at 1000 (3 # 100) 10 Demo.voiced ++
                Demo.frames_at (10003 # 10) (3 # 100) 24 Demo.silent))) /\
    Shape.ends_in_silence Demo.capturer 24 (AudioSegment.samples seg).
Proof.
  eexists. split; [vm_compute; left; reflexivity |].
  apply (silence_ended_segment_keeps_the_pause Demo.segmenter Demo.capturer
           (Demo.frames_at 1000 (3 # 100) 10 Demo.voiced ++
            Demo.frames_at (10003 # 10) (3 # 100) 24 Demo.silent)).
  - discriminate.
  - vm_compute. left. reflexivity.
Defined.


Lemma segmenter_loop_feeds_in_order_witness :
  let capturer :=
    set_q Demo.capturer
      (Queue.mk 100 [(1000%Q, Toy.voiced_frame); ((10105 # 10)%Q, Toy.voiced_frame)]) in
  Fallible.accepts Toy.detector capturer (Queue.items (q capturer)) /\
  Fallible.segmenter_run Toy.detector 3 Demo.segmenter
    (capturer, Segmenter.initial, (Queue.new 50, [])) =
  Returned
    (Demo.capturer, Segmenter.initial,
     (Queue.mk 50 [AudioSegment.mk 1000 (Some (10105 # 10)%Q)
                     [Toy.voiced_frame; Toy.voiced_frame]],
      [])).
Proof.
  cbv zeta.
  assert (Hacc : Fallible.accepts Toy.detector
            (set_q Demo.capturer
               (Queue.mk 100 [(1000%Q, Toy.voiced_frame);
                              ((10105 # 10)%Q, Toy.voiced_frame)]))
            [(1000%Q, Toy.voiced_frame); ((10105 # 10)%Q, Toy.voiced_frame)]).
  { repeat (constructor; [vm_compute; reflexivity |]). constructor. }
  split; [exact Hacc |].
  destruct (segmenter_loop_feeds_in_order Toy.detector 3 Demo.segmenter
              (set_q Demo.capturer
                 (Queue.mk 100 [(1000%Q, Toy.voiced_frame);
                                ((10105 # 10)%Q, Toy.voiced_frame)]))
              Segmenter.initial (Queue.new 50) []) as [Hfeed _].
  etransitivity.
  - apply Hfeed.
    + exact Hacc.
    + simpl. lia.
    + right. vm_compute. discriminate.
  - vm_compute. reflexivity.
Defined.

Lemma worker_loop_serves_in_order_witness :
  Loops.worker_run 2 16000 (SRTWriter.mk "captions.srt")
    (STTWorker.__init__ Demo.mute_backend, Queue.mk 50 [Demo.spoken],
     STTWorker.mkW [] ∅ []) =
  Returned (STTWorker.__init__ Demo.mute_backend, Queue.mk 50 [],
            STTWorker.mkW [] ∅ []).
Proof.
  etransitivity.
  - apply (worker_loop_serves_in_order 2 16000 (SRTWriter.mk "captions.srt")
             (STTWorker.__init__ Demo.mute_backend) (Queue.mk 50 [Demo.spoken])
             (STTWorker.mkW [] ∅ [])).
    simpl. lia.
  - reflexivity.
Defined.

Lemma recognizer_is_fed_the_whole_input_witness :
  VoskBackend.pieces_from 9 0 (AudioSegment.get_pcm_bytes Demo.spoken) =
    VoskBackend.pieces (AudioSegment.get_pcm_bytes Demo.spoken).
Proof.
  destruct (recognizer_is_fed_the_whole_input (AudioSegment.get_pcm_bytes Demo.spoken))
    as (_ & _ & _ & Hfuel).
  apply Hfuel. simpl. lia.
Defined.

Lemma captured_blocks_are_segmented_in_order_witness :
  (r ← Loops.callbacks Demo.capturer
         [(repeat [1200] 480, ""%string, 1000%Q);
          (repeat [1200] 480, ""%string, (10105 # 10)%Q)] [];
   Fallible.segmenter_run Toy.detector 2 Demo.segmenter
     (fst r, Segmenter.initial, (Queue.new 50, snd r))) =
  Returned
    (Demo.capturer, Segmenter.initial,
     (Queue.mk 50 [AudioSegment.mk 1000 (Some (10105 # 10)%Q)
                     [Toy.voiced_frame; Toy.voiced_frame]],
      [])).
Proof.
  etransitivity.
  - apply (captured_blocks_are_segmented_in_order Toy.detector
             (fun _ => Demo.energy_vad) 16000 30 2 1
             [(repeat [1200] 480, ""%string, 1000%Q);
              (repeat [1200] 480, ""%string, (10105 # 10)%Q)] [] 2 Demo.segmenter
             (Queue.new 50)).
    + repeat (constructor; [vm_compute; reflexivity |]). constructor.
    + simpl. lia.
    + simpl. lia.
    + right. vm_compute. discriminate.
  - vm_compute. reflexivity.
Defined.

End MoreInstances.
